(** * Self-healing element resolution (utils/selfHealing.ts)

    A shallow embedding of [SelfHealingUtils] and of the part of
    [SelfHealingBasePage] that forwards to it.  The browser page with its
    timer, the clock and the file system are an environment that answers
    each call from the history of the calls made so far; the engine is a
    state-and-exception computation over that history, the healing log and
    the console. *)

From Stdlib Require Import ZArith List String Ascii Bool Lia Arith.
From Stdlib Require Import DecimalString.
Import ListNotations.

Local Open Scope string_scope.
Local Open Scope Z_scope.

Set Implicit Arguments.

(* ================================================================== *)
(** ** Strings as the source builds them *)

(** The double quote, which the selector templates embed. *)
Definition dq : string := String (ascii_of_nat 34) EmptyString.

(** [`${n}`] for an integral number. *)
Definition string_of_Z (z : Z) : string :=
  NilZero.string_of_int (Z.to_int z).

(** What [String.prototype.toLowerCase] does to a string of ASCII
    characters: [A]..[Z] become [a]..[z], the rest is kept.  The mapping
    of the other characters comes from the Unicode tables of the runtime
    and is a field of the environment below; this function is the one the
    concrete pages of this file use, whose descriptions are ASCII. *)
Definition lower_ascii (c : ascii) : ascii :=
  let n := nat_of_ascii c in
  if (Nat.leb 65 n && Nat.leb n 90)%bool then ascii_of_nat (n + 32) else c.

Fixpoint ascii_toLowerCase (s : string) : string :=
  match s with
  | EmptyString => EmptyString
  | String c r => String (lower_ascii c) (ascii_toLowerCase r)
  end.

(** [String.prototype.includes]. *)
Fixpoint includes (s sub : string) : bool :=
  (String.prefix sub s ||
   match s with
   | EmptyString => false
   | String _ r => includes r sub
   end)%bool.

(* ================================================================== *)
(** ** Data model *)

Inductive ElementType := button | input | link | text | generic.

Record SelectorStrategy := {
  primary : string;
  fallbacks : list string;
  description : string;
  elementType : ElementType
}.

(** [maxRetries] and [retryDelay] are numbers used as a count and as
    milliseconds; they are taken integral. *)
Record SelfHealingConfig := {
  maxRetries : Z;
  retryDelay : Z;
  enableLogging : bool;
  screenshotOnFailure : bool
}.

(** [Partial<SelfHealingConfig>], the constructor's optional argument. *)
Record PartialConfig := {
  p_maxRetries : option Z;
  p_retryDelay : option Z;
  p_enableLogging : option bool;
  p_screenshotOnFailure : option bool
}.

Definition spread {A} (default : A) (o : option A) : A :=
  match o with Some a => a | None => default end.

(** The constructor's [{ maxRetries: 3, ..., ...config }]. *)
Definition make_config (config : option PartialConfig) : SelfHealingConfig :=
  match config with
  | None =>
      {| maxRetries := 3; retryDelay := 1000;
         enableLogging := true; screenshotOnFailure := true |}
  | Some c =>
      {| maxRetries := spread 3 (p_maxRetries c);
         retryDelay := spread 1000 (p_retryDelay c);
         enableLogging := spread true (p_enableLogging c);
         screenshotOnFailure := spread true (p_screenshotOnFailure c) |}
  end.

(** A Playwright [Locator]: lazy, it only remembers its selector. *)
Inductive Locator := Loc (selector : string).

Definition selector_of (l : Locator) : string :=
  match l with Loc s => s end.

(** What a [catch] clause can receive: an error object, or [undefined]
    (the never-assigned [lastError] of [retryOperation]). *)
Inductive Error := JsError (message : string) | JsUndefined.

(** The documents handed to [JSON.stringify]. *)
#[local] Unset Elimination Schemes.
Inductive Json :=
| JString (s : string)
| JNumber (n : Z)
| JBool (b : bool)
| JArray (items : list Json)
| JObject (fields : list (string * Json)).
#[local] Set Elimination Schemes.

(** The scripts given to [Locator.evaluate]. *)
Inductive Script :=
| JsClick                      (* el => el.click() *)
| JsSetValue (value : string)  (* el.value = val; dispatch input, change *)
| JsTextContent.               (* el => el.textContent *)

(** Calls on the page (and on the file system) that resolve to nothing and
    may reject; [page.waitForTimeout] is one of them (it rejects when the
    page is closed before the delay is over). *)
Inductive Action :=
| AWaitFor (selector : string) (timeout : Z)
| AWaitForTimeout (ms : Z)
| AClick (selector : string) (force : bool)
| AClear (selector : string)
| AFill (selector : string) (value : string)
| AKeyboardPress (key : string)
| AKeyboardType (text : string)
| AEvaluate (selector : string) (script : Script)
| AScreenshot (path : string) (fullPage : bool)
| AWriteFile (path : string) (document : Json).

(** Calls that resolve to a text (or [null]) and may reject. *)
Inductive TextQuery :=
| QTextContent (selector : string)
| QInnerText (selector : string)
| QEvaluateText (selector : string).

(** One entry of the interaction history: the call and its outcome.
    Reading the clock does not reject. *)
Inductive Event :=
| EAction (a : Action) (outcome : option Error)
| EText (q : TextQuery) (outcome : Error + option string)
| EClock (ms : Z).

(** The environment: what each call answers after a given history
    ([None] is a resolved promise, [Some e] a rejection with [e]), and
    the case mapping of the runtime, [String.prototype.toLowerCase], whose
    Unicode tables are not part of the program. *)
Record Env := {
  env_action : list Event -> Action -> option Error;
  env_text : list Event -> TextQuery -> Error + option string;
  env_clock : list Event -> Z;
  env_toLowerCase : string -> string
}.

(** The engine instance together with what it has done to the world.
    [console] is the output of [console.log]; it is not part of the
    history the environment answers from. *)
Record State := {
  trace : list Event;
  healingLog : list string;
  console : list string
}.

Definition initial_state : State :=
  {| trace := []; healingLog := []; console := [] |}.

(* ================================================================== *)
(** ** The state-and-exception monad *)

Inductive Result (A : Type) :=
| Ok (a : A)
| Throw (e : Error).

Arguments Ok {A} a.
Arguments Throw {A} e.

Definition M (A : Type) : Type := State -> Result A * State.

Definition ret {A} (a : A) : M A := fun st => (Ok a, st).

Definition throw {A} (e : Error) : M A := fun st => (Throw e, st).

Definition bind {A B} (m : M A) (f : A -> M B) : M B :=
  fun st =>
    match m st with
    | (Ok a, st') => f a st'
    | (Throw e, st') => (Throw e, st')
    end.

(** [try { m } catch (error) { h error }]. *)
Definition try_catch {A} (m : M A) (h : Error -> M A) : M A :=
  fun st =>
    match m st with
    | (Ok a, st') => (Ok a, st')
    | (Throw e, st') => h e st'
    end.

Definition when (b : bool) (m : M unit) : M unit :=
  if b then m else ret tt.

Declare Scope monad_scope.
Delimit Scope monad_scope with monad.
Notation "x <- m ;; k" := (bind m (fun x => k))
  (at level 61, m at next level, right associativity) : monad_scope.
Notation "m ;; k" := (bind m (fun _ => k))
  (at level 61, right associativity) : monad_scope.
Local Open Scope monad_scope.

Definition record_event (e : Event) (st : State) : State :=
  {| trace := trace st ++ [e];
     healingLog := healingLog st;
     console := console st |}.

Definition console_log (msg : string) : M unit :=
  fun st =>
    (Ok tt, {| trace := trace st;
               healingLog := healingLog st;
               console := console st ++ [msg] |}).

Definition push_log (entry : string) : M unit :=
  fun st =>
    (Ok tt, {| trace := trace st;
               healingLog := healingLog st ++ [entry];
               console := console st |}).

Definition gets {A} (f : State -> A) : M A := fun st => (Ok (f st), st).

(* ================================================================== *)
(** ** The clock: [Date.now()] and [Date.prototype.toISOString] *)

Definition digit_char (d : Z) : ascii := ascii_of_nat (48 + Z.to_nat d).

(** The [n] low decimal digits of [k], most significant first: a
    zero-padded field of fixed width. *)
Fixpoint digits (n : nat) (k : Z) : string :=
  match n with
  | O => EmptyString
  | S n' => digits n' (k / 10) ++ String (digit_char (k mod 10)) EmptyString
  end.

Definition ms_per_day : Z := 86400000.

(** Year, month and day of a day number counted from 1970-01-01
    (proleptic Gregorian calendar, as ECMAScript's YearFromTime,
    MonthFromTime and DateFromTime). *)
Definition civil_from_days (days : Z) : Z * Z * Z :=
  let z := days + 719468 in
  let era := z / 146097 in
  let doe := z - era * 146097 in
  let yoe := (doe - doe / 1460 + doe / 36524 - doe / 146096) / 365 in
  let doy := doe - (365 * yoe + yoe / 4 - yoe / 100) in
  let mp := (5 * doy + 2) / 153 in
  let d := doy - (153 * mp + 2) / 5 + 1 in
  let m := if mp <? 10 then mp + 3 else mp - 9 in
  let y := yoe + era * 400 + (if m <=? 2 then 1 else 0) in
  (y, m, d).

Definition year_field (y : Z) : string :=
  if (0 <=? y) && (y <=? 9999) then digits 4 y
  else (if y <? 0 then "-" else "+") ++ digits 6 (Z.abs y).

(** [new Date(t).toISOString()]: [YYYY-MM-DDTHH:mm:ss.sssZ], with the
    expanded year [±YYYYYY] outside 0000..9999. *)
Definition toISOString (t : Z) : string :=
  let '(y, m, d) := civil_from_days (t / ms_per_day) in
  let r := t mod ms_per_day in
  year_field y ++ "-" ++ digits 2 m ++ "-" ++ digits 2 d ++ "T"
    ++ digits 2 (r / 3600000) ++ ":" ++ digits 2 (r / 60000 mod 60) ++ ":"
    ++ digits 2 (r / 1000 mod 60) ++ "." ++ digits 3 (r mod 1000) ++ "Z".

(* ================================================================== *)
(** ** The engine: class [SelfHealingUtils] *)

(** The per-candidate bounds given to [Locator.waitFor]. *)
Definition primary_timeout : Z := 5000.
Definition fallback_timeout : Z := 3000.
Definition heuristic_timeout : Z := 2000.

(** [${timestamp} - ${status} - ${description}: ${original} → ${healed}] *)
Definition status_string (failed : bool) : string :=
  if failed then "❌ FAILED" else "🔧 HEALED".

Definition logEntry (timestamp : string) (failed : bool)
    (description originalSelector healedSelector : string) : string :=
  timestamp ++ " - " ++ status_string failed ++ " - " ++ description
    ++ ": " ++ originalSelector ++ " → " ++ healedSelector.

Definition quoted (s : string) : string := dq ++ s ++ dq.

(** The candidate tables of [findButtonByContext], [findInputByContext],
    [findLinkByContext], [findTextByContext] and [findGenericByContext]. *)
Definition buttonStrategies (description : string) : list string :=
  [ "button:has-text(" ++ quoted description ++ ")";
    "[role=" ++ quoted "button" ++ "]:has-text(" ++ quoted description ++ ")";
    "input[type=" ++ quoted "button" ++ "][value*=" ++ quoted description ++ "]";
    "input[type=" ++ quoted "submit" ++ "][value*=" ++ quoted description ++ "]";
    ".btn:has-text(" ++ quoted description ++ ")";
    ".button:has-text(" ++ quoted description ++ ")" ]
  ++ (if includes description "login"
      then [ "button[type=" ++ quoted "submit" ++ "]";
             "[data-test*=" ++ quoted "login" ++ "]";
             "[id*=" ++ quoted "login" ++ "]";
             ".login-btn" ]
      else [])
  ++ (if includes description "add" && includes description "cart"
      then [ "[data-test*=" ++ quoted "add-to-cart" ++ "]";
             "[data-test*=" ++ quoted "add" ++ "]";
             ".add-to-cart";
             "button:has-text(" ++ quoted "Add" ++ ")" ]
      else [])
  ++ (if includes description "checkout"
      then [ "[data-test*=" ++ quoted "checkout" ++ "]";
             ".checkout-btn";
             "button:has-text(" ++ quoted "Checkout" ++ ")" ]
      else []).

Definition inputStrategies (description : string) : list string :=
  [ "input[placeholder*=" ++ quoted description ++ "]";
    "input[name*=" ++ quoted description ++ "]";
    "input[id*=" ++ quoted description ++ "]";
    "[data-test*=" ++ quoted description ++ "]" ]
  ++ (if includes description "username"
      then [ "input[type=" ++ quoted "text" ++ "]";
             "input[name=" ++ quoted "username" ++ "]";
             "input[name=" ++ quoted "user" ++ "]";
             "input[id*=" ++ quoted "username" ++ "]";
             "input[id*=" ++ quoted "user" ++ "]" ]
      else [])
  ++ (if includes description "password"
      then [ "input[type=" ++ quoted "password" ++ "]";
             "input[name=" ++ quoted "password" ++ "]";
             "input[name=" ++ quoted "pass" ++ "]";
             "input[id*=" ++ quoted "password" ++ "]" ]
      else [])
  ++ (if includes description "email"
      then [ "input[type=" ++ quoted "email" ++ "]";
             "input[name=" ++ quoted "email" ++ "]";
             "input[id*=" ++ quoted "email" ++ "]" ]
      else []).

Definition linkStrategies (description : string) : list string :=
  [ "a:has-text(" ++ quoted description ++ ")";
    "[role=" ++ quoted "link" ++ "]:has-text(" ++ quoted description ++ ")";
    "a[href*=" ++ quoted description ++ "]";
    ".link:has-text(" ++ quoted description ++ ")" ].

Definition textStrategies (description : string) : list string :=
  [ ":text(" ++ quoted description ++ ")";
    ":text-is(" ++ quoted description ++ ")";
    "*:has-text(" ++ quoted description ++ ")";
    "[aria-label*=" ++ quoted description ++ "]";
    ".text:has-text(" ++ quoted description ++ ")" ].

Definition genericStrategies (description : string) : list string :=
  [ "[data-test*=" ++ quoted description ++ "]";
    "[data-testid*=" ++ quoted description ++ "]";
    "[id*=" ++ quoted description ++ "]";
    "[class*=" ++ quoted description ++ "]";
    "[aria-label*=" ++ quoted description ++ "]";
    ":has-text(" ++ quoted description ++ ")" ].

(** The candidates [intelligentFallback] hands to [tryStrategies]: the
    [switch] on the element type, on the lower-cased description. *)
Definition heuristic_candidates (env : Env) (elementType : ElementType)
    (description : string) : list string :=
  let lowerDescription := env_toLowerCase env description in
  match elementType with
  | button => buttonStrategies lowerDescription
  | input => inputStrategies lowerDescription
  | link => linkStrategies lowerDescription
  | text => textStrategies lowerDescription
  | generic => genericStrategies lowerDescription
  end.

Definition failure_screenshot_path (now : Z) : string :=
  "test-results/self-healing-failure-" ++ string_of_Z now ++ ".png".

Definition report_path (now : Z) : string :=
  "test-results/self-healing-report-" ++ string_of_Z now ++ ".json".

Definition config_json (c : SelfHealingConfig) : Json :=
  JObject [ ("maxRetries", JNumber (maxRetries c));
            ("retryDelay", JNumber (retryDelay c));
            ("enableLogging", JBool (enableLogging c));
            ("screenshotOnFailure", JBool (screenshotOnFailure c)) ].

(** The [report] object literal of [exportHealingReport]. *)
Definition report_document (c : SelfHealingConfig) (timestamp : string)
    (log : list string) : Json :=
  JObject [ ("timestamp", JString timestamp);
            ("totalHealingAttempts", JNumber (Z.of_nat (List.length log)));
            ("healingLog", JArray (map JString log));
            ("config", config_json c) ].

(** The values [attempt] takes in
    [for (let attempt = 1; attempt <= maxRetries; attempt++)]. *)
Definition attempt_range (maxRetries : Z) : list Z :=
  map Z.of_nat (seq 1 (Z.to_nat maxRetries)).

Section Engine.

Variable env : Env.
Variable config : SelfHealingConfig.

(** A call on the page: the environment answers from the history, the
    call and its outcome join the history. *)
Definition page_call (a : Action) : M unit :=
  fun st =>
    let outcome := env_action env (trace st) a in
    let st' := record_event (EAction a outcome) st in
    match outcome with
    | None => (Ok tt, st')
    | Some e => (Throw e, st')
    end.

Definition page_text (q : TextQuery) : M (option string) :=
  fun st =>
    let outcome := env_text env (trace st) q in
    let st' := record_event (EText q outcome) st in
    match outcome with
    | inr t => (Ok t, st')
    | inl e => (Throw e, st')
    end.

(** [await this.page.waitForTimeout(delay)] *)
Definition waitForTimeout (delay : Z) : M unit :=
  page_call (AWaitForTimeout delay).

(** [Date.now()], and the time value of [new Date()]. *)
Definition now : M Z :=
  fun st =>
    let t := env_clock env (trace st) in
    (Ok t, record_event (EClock t) st).

(** [this.page.locator(selector)] followed by
    [await locator.waitFor({ timeout })]. *)
Definition locate_and_wait (selector : string) (timeout : Z) : M Locator :=
  page_call (AWaitFor selector timeout);;
  ret (Loc selector).

Definition logHealing (originalSelector healedSelector description : string)
    (failed : bool) : M unit :=
  t <- now;;
  let entry :=
    logEntry (toISOString t) failed description originalSelector
      healedSelector in
  push_log entry;;
  when (enableLogging config) (console_log entry).

(** The loop of [tryStrategies]. *)
Fixpoint tryStrategies (strategies : list string) : M (option Locator) :=
  match strategies with
  | [] => ret None
  | strategy :: rest =>
      try_catch
        (locator <- locate_and_wait strategy heuristic_timeout;;
         ret (Some locator))
        (fun _ => tryStrategies rest)
  end.

Definition intelligentFallback (elementType : ElementType)
    (description : string) : M (option Locator) :=
  tryStrategies (heuristic_candidates env elementType description).

(** The fallback loop of [findElement]; [i] is the loop index.  [Some] is
    the [return] inside the loop, [None] falls out of it. *)
Fixpoint try_fallbacks (primary description : string) (i : Z)
    (fallbacks : list string) : M (option Locator) :=
  match fallbacks with
  | [] => ret None
  | fallbackSelector :: rest =>
      try_catch
        (fallbackLocator <- locate_and_wait fallbackSelector fallback_timeout;;
         logHealing primary fallbackSelector description false;;
         ret (Some fallbackLocator))
        (fun _ =>
           when (enableLogging config)
             (console_log ("❌ Fallback " ++ string_of_Z (i + 1)
                             ++ " failed: " ++ fallbackSelector));;
           try_fallbacks primary description (i + 1) rest)
  end.

(** The first [try] of [findElement]. *)
Definition try_primary (primary description : string) : M (option Locator) :=
  try_catch
    (primaryLocator <- locate_and_wait primary primary_timeout;;
     when (enableLogging config)
       (console_log ("✅ Primary selector worked: " ++ primary
                       ++ " (" ++ description ++ ")"));;
     ret (Some primaryLocator))
    (fun _ =>
       when (enableLogging config)
         (console_log ("❌ Primary selector failed: " ++ primary
                         ++ " (" ++ description ++ ")"));;
       ret None).

(** What follows the heuristics when they all failed. *)
Definition all_strategies_failed (primary description : string)
    : M (option Locator) :=
  when (screenshotOnFailure config)
    (t <- now;;
     page_call (AScreenshot (failure_screenshot_path t) true));;
  logHealing primary "FAILED" description true;;
  ret None.

Definition findElement (strategy : SelectorStrategy) : M (option Locator) :=
  let primary := primary strategy in
  let fallbacks := fallbacks strategy in
  let description := description strategy in
  let elementType := elementType strategy in
  found <- try_primary primary description;;
  match found with
  | Some primaryLocator => ret (Some primaryLocator)
  | None =>
      found <- try_fallbacks primary description 0 fallbacks;;
      match found with
      | Some fallbackLocator => ret (Some fallbackLocator)
      | None =>
          intelligentLocator <- intelligentFallback elementType description;;
          match intelligentLocator with
          | Some l =>
              logHealing primary "intelligent-fallback" description false;;
              ret (Some l)
          | None => all_strategies_failed primary description
          end
      end
  end.

(** The loop of [retryOperation] over the remaining values of [attempt]. *)
Fixpoint retry_attempts {T} (operation : M T) (attempts : list Z)
    (lastError : Error) : M T :=
  match attempts with
  | [] => throw lastError
  | attempt :: rest =>
      try_catch operation
        (fun error =>
           if attempt =? maxRetries config then throw error
           else
             waitForTimeout (retryDelay config * 2 ^ (attempt - 1));;
             retry_attempts operation rest error)
  end.

Definition retryOperation {T} (operation : M T) : M T :=
  retry_attempts operation (attempt_range (maxRetries config)) JsUndefined.

(** [click] once the element is resolved. *)
Definition click_element (element : Locator) (strategy : SelectorStrategy)
    : M bool :=
  let sel := selector_of element in
  try_catch
    (retryOperation (page_call (AClick sel false));;
     ret true)
    (fun _ =>
       try_catch
         (page_call (AClick sel true);;
          logHealing (primary strategy) "force-click"
            (description strategy) false;;
          ret true)
         (fun _ =>
            try_catch
              (page_call (AEvaluate sel JsClick);;
               logHealing (primary strategy) "js-click"
                 (description strategy) false;;
               ret true)
              (fun _ => ret false))).

Definition click (strategy : SelectorStrategy) : M bool :=
  element <- findElement strategy;;
  match element with
  | None => ret false
  | Some element => click_element element strategy
  end.

(** [fill] once the element is resolved. *)
Definition fill_element (element : Locator) (strategy : SelectorStrategy)
    (value : string) : M bool :=
  let sel := selector_of element in
  try_catch
    (retryOperation (page_call (AClear sel);; page_call (AFill sel value));;
     ret true)
    (fun _ =>
       try_catch
         (page_call (AClick sel false);;
          page_call (AKeyboardPress "Control+a");;
          page_call (AKeyboardType value);;
          logHealing (primary strategy) "keyboard-fill"
            (description strategy) false;;
          ret true)
         (fun _ =>
            try_catch
              (page_call (AEvaluate sel (JsSetValue value));;
               logHealing (primary strategy) "js-fill"
                 (description strategy) false;;
               ret true)
              (fun _ => ret false))).

Definition fill (strategy : SelectorStrategy) (value : string) : M bool :=
  element <- findElement strategy;;
  match element with
  | None => ret false
  | Some element => fill_element element strategy value
  end.

(** [getText] once the element is resolved. *)
Definition getText_element (element : Locator) : M (option string) :=
  let sel := selector_of element in
  try_catch (page_text (QTextContent sel))
    (fun _ =>
       try_catch (page_text (QInnerText sel))
         (fun _ =>
            try_catch (page_text (QEvaluateText sel))
              (fun _ => ret None))).

Definition getText (strategy : SelectorStrategy) : M (option string) :=
  element <- findElement strategy;;
  match element with
  | None => ret None
  | Some element => getText_element element
  end.

Definition getHealingLog : M (list string) := gets healingLog.

Definition exportHealingReport : M unit :=
  t <- now;;
  log <- gets healingLog;;
  let report := report_document config (toISOString t) log in
  t' <- now;;
  page_call (AWriteFile (report_path t') report).

Definition clearLog : M unit :=
  fun st =>
    (Ok tt, {| trace := trace st; healingLog := []; console := console st |}).

(** [SelfHealingBasePage.exportHealingReport]:
    [await this.healingUtils.exportHealingReport()]. *)
Definition page_exportHealingReport : M unit :=
  exportHealingReport.

End Engine.

(* ================================================================== *)
(** ** Vocabulary of the statements *)

(** The candidates of one resolution, each with the bound its wait is
    given: the primary, the fallbacks in listed order, the heuristics in
    generator order. *)
Definition candidates (env : Env) (s : SelectorStrategy)
    : list (string * Z) :=
  ((primary s, primary_timeout)
   :: map (fun f => (f, fallback_timeout)) (fallbacks s)
   ++ map (fun c => (c, heuristic_timeout))
        (heuristic_candidates env (elementType s) (description s)))%list.

Definition wait_event (c : string * Z) (outcome : option Error) : Event :=
  EAction (AWaitFor (fst c) (snd c)) outcome.

(** [all_fail env h cs h']: tried one after the other from history [h],
    every candidate of [cs] fails to show up within its bound, and the
    history is then [h']. *)
Inductive all_fail (env : Env)
  : list Event -> list (string * Z) -> list Event -> Prop :=
| all_fail_nil h : all_fail env h [] h
| all_fail_cons h c e cs h' :
    env_action env h (AWaitFor (fst c) (snd c)) = Some e ->
    all_fail env (h ++ [wait_event c (Some e)]) cs h' ->
    all_fail env h (c :: cs) h'.

(** The waits of a history, in order. *)
Fixpoint waits_of (evs : list Event) : list (string * Z) :=
  match evs with
  | [] => []
  | EAction (AWaitFor sel t) _ :: r => (sel, t) :: waits_of r
  | _ :: r => waits_of r
  end.

Definition is_screenshot (e : Event) : bool :=
  match e with
  | EAction (AScreenshot _ _) _ => true
  | _ => false
  end.

Definition screenshots (evs : list Event) : nat :=
  List.length (filter is_screenshot evs).

(** The events a run adds to the history it started from. *)
Definition new_events (before after : State) : list Event :=
  skipn (List.length (trace before)) (trace after).

Definition new_entries (before after : State) : list string :=
  skipn (List.length (healingLog before)) (healingLog after).

(** A page on which a wait succeeds exactly for the selectors [visible]
    accepts, every other action (the timer's wait included) succeeds
    exactly when [works] accepts it, text queries answer [texts], and the
    clock counts the events so far.  The case mapping is the ASCII one,
    which is the runtime's on the ASCII descriptions of the strategies
    below. *)
Definition fixed_env (visible : string -> bool) (works : Action -> bool)
    (texts : TextQuery -> Error + option string) : Env :=
  {| env_action := fun _ a =>
       match a with
       | AWaitFor sel _ =>
           if visible sel then None else Some (JsError "Timeout exceeded")
       | _ => if works a then None else Some (JsError "rejected")
       end;
     env_text := fun _ q => texts q;
     env_clock := fun h => Z.of_nat (List.length h);
     env_toLowerCase := ascii_toLowerCase |}.

Definition default_config : SelfHealingConfig := make_config None.


(** One tier of candidates: selectors sharing a bound. *)
Definition tier (timeout : Z) (selectors : list string) : list (string * Z) :=
  map (fun c => (c, timeout)) selectors.

Definition with_trace (h : list Event) (st : State) : State :=
  {| trace := h; healingLog := healingLog st; console := console st |}.

Definition with_console (c : list string) (st : State) : State :=
  {| trace := trace st; healingLog := healingLog st; console := c |}.

(** The screenshot call of the failure path after history [h], and the
    history it is made in (the path reads the clock first). *)
Definition failure_shot (env : Env) (h : list Event) : Action :=
  AScreenshot (failure_screenshot_path (env_clock env h)) true.

Definition shot_history (env : Env) (h : list Event) : list Event :=
  (h ++ [EClock (env_clock env h)])%list.

(* ================================================================== *)
(** ** The properties of the specification, as it words them *)

(** P3: when every candidate fails, the resolution signals failure, one
    FAILED entry is appended and a screenshot is captured iff the
    configuration asks for one. *)
Definition spec_P3_total_failure (env : Env) (cfg : SelfHealingConfig)
    (s : SelectorStrategy) (st : State) : Prop :=
  forall h, all_fail env (trace st) (candidates env s) h ->
    let r := findElement env cfg s st in
    fst r = Ok None
    /\ (exists t, new_entries st (snd r)
                  = [logEntry t true (description s) (primary s) "FAILED"])
    /\ (screenshots (new_events st (snd r)) = 1%nat
        <-> screenshotOnFailure cfg = true).

(** Failure semantics: a resolution never throws. *)
Definition spec_never_throws (env : Env) (cfg : SelfHealingConfig)
    (s : SelectorStrategy) (st : State) : Prop :=
  exists found, fst (findElement env cfg s st) = Ok found.

(** Timeout tiers: the wait of every fallback is given a longer bound than
    the wait of the primary ([waits] are the waits of one resolution:
    the primary first, then the fallbacks). *)
Definition spec_fallback_waits_longer (s : SelectorStrategy)
    (waits : list (string * Z)) : Prop :=
  forall i p tp f tf,
    nth_error waits 0 = Some (p, tp) ->
    nth_error waits (S i) = Some (f, tf) ->
    (i < List.length (fallbacks s))%nat ->
    tp < tf.

(* ================================================================== *)
(** ** Concrete pages and strategies *)

Definition no_text (q : TextQuery) : Error + option string := inr None.

(** Scenario A of the specification: the primary is gone, the only
    fallback is on the page. *)
Definition scenario_A : SelectorStrategy :=
  {| primary := "#bad-id";
     fallbacks := ["input[type=text]"];
     description := "username field";
     elementType := input |}.

Definition page_A : Env :=
  fixed_env (String.eqb "input[type=text]") (fun _ => true) no_text.

(** A page showing everything asked for. *)
Definition full_page : Env :=
  fixed_env (fun _ => true) (fun _ => true) no_text.

(** A page showing nothing, on which screenshots still work. *)
Definition blank_page : Env :=
  fixed_env (fun _ => false) (fun _ => true) no_text.

(** A page showing nothing and on which every call rejects, as after the
    browser went away. *)
Definition dead_page : Env :=
  fixed_env (fun _ => false) (fun _ => false) no_text.

Definition login_button : SelectorStrategy :=
  {| primary := "#login";
     fallbacks := ["#signin"];
     description := "Login";
     elementType := button |}.

(** The history after every candidate of [cs] was tried from [h] (and
    failed). *)
Fixpoint failed_history (env : Env) (h : list Event)
    (cs : list (string * Z)) : list Event :=
  match cs with
  | [] => h
  | c :: cs' =>
      failed_history env
        (h ++ [wait_event c (env_action env h (AWaitFor (fst c) (snd c)))])
        cs'
  end.

(** The history in which [exportHealingReport] writes its file (the clock
    is read for the report's timestamp and again for the file name), and
    the write it makes. *)
Definition report_history (env : Env) (st : State) : list Event :=
  let h1 := shot_history env (trace st) in
  shot_history env h1.

Definition report_write (env : Env) (cfg : SelfHealingConfig) (st : State)
    : Action :=
  let t := env_clock env (trace st) in
  let t' := env_clock env (shot_history env (trace st)) in
  AWriteFile (report_path t')
    (report_document cfg (toISOString t) (healingLog st)).

(** ReportWriteFailure: a failed export is never propagated. *)
Definition spec_export_never_fails (env : Env) (cfg : SelfHealingConfig)
    (st : State) : Prop :=
  fst (exportHealingReport env cfg st) = Ok tt
  /\ fst (page_exportHealingReport env cfg st) = Ok tt.

(** The retry utility in the words of the specification: invoke the
    operation; on failure wait [retryDelayMs * 2^(attempt-1)] and retry, up
    to [maxRetries] attempts in total. *)
Inductive RetryStep :=
| Invoke
| Backoff (delay : Z).

Definition spec_retry_schedule (cfg : SelfHealingConfig) : list RetryStep :=
  Invoke
  :: flat_map
       (fun attempt =>
          [Backoff (retryDelay cfg * 2 ^ (attempt - 1)); Invoke])
       (attempt_range (maxRetries cfg - 1)).

(** Carrying a schedule out: each [Invoke] runs the operation and
    remembers its failure, each [Backoff] is a wait on the page's timer
    (the specification has no word on a wait that fails: its outcome is
    not looked at); the result is the last failure seen. *)
Fixpoint run_schedule {T} (env : Env) (operation : M T)
    (steps : list RetryStep) (lastError : Error) (st : State)
    : Error * State :=
  match steps with
  | [] => (lastError, st)
  | Invoke :: rest =>
      match operation st with
      | (Throw e, st') => run_schedule env operation rest e st'
      | (Ok _, st') => run_schedule env operation rest lastError st'
      end
  | Backoff delay :: rest =>
      run_schedule env operation rest lastError
        (snd (waitForTimeout env delay st))
  end.

(** An operation that fails whenever it is invoked. *)
Definition always_fails {T} (operation : M T) : Prop :=
  forall st, exists e st', operation st = (Throw e, st').

(** P5 and the retry utility in the words of the specification: with
    [maxRetries >= 1] and [retryDelayMs >= 0], an operation that fails on
    every attempt is carried through the whole schedule, and the caller
    gets the failure of the last attempt. *)
Definition spec_P5_backoff {T} (env : Env) (cfg : SelfHealingConfig)
    (operation : M T) (st : State) : Prop :=
  always_fails operation ->
  1 <= maxRetries cfg ->
  0 <= retryDelay cfg ->
  let outcome :=
    run_schedule env operation (spec_retry_schedule cfg) JsUndefined st in
  retryOperation env cfg operation st = (Throw (fst outcome), snd outcome).

Definition is_invoke (s : RetryStep) : bool :=
  match s with Invoke => true | Backoff _ => false end.

Definition invocations (steps : list RetryStep) : Z :=
  Z.of_nat (List.length (filter is_invoke steps)).

Fixpoint backoff_delays (steps : list RetryStep) : list Z :=
  match steps with
  | [] => []
  | Invoke :: rest => backoff_delays rest
  | Backoff d :: rest => d :: backoff_delays rest
  end.

(** An element that takes no click, standard or forced; a script can
    still click it. *)
Definition unclickable : Env :=
  fixed_env (fun _ => true)
    (fun a => match a with AClick _ _ => false | _ => true end) no_text.

(* ================================================================== *)
(** ** The shape of timestamps, log entries and reports *)

Inductive CharClass :=
| Digit
| Sign
| Lit (c : ascii).

Definition is_digit (a : ascii) : bool :=
  let n := nat_of_ascii a in (Nat.leb 48 n && Nat.leb n 57)%bool.

Definition in_class (c : CharClass) (a : ascii) : bool :=
  match c with
  | Digit => is_digit a
  | Sign => (Ascii.eqb a "+" || Ascii.eqb a "-")%bool
  | Lit l => Ascii.eqb a l
  end.

Fixpoint matches (p : list CharClass) (s : string) : bool :=
  match p, s with
  | [], EmptyString => true
  | c :: p', String a s' => (in_class c a && matches p' s')%bool
  | _, _ => false
  end.

(** [YYYY-MM-DDTHH:mm:ss.sssZ] *)
Definition iso_pattern : list CharClass :=
  (repeat Digit 4 ++ [Lit "-"] ++ repeat Digit 2 ++ [Lit "-"]
   ++ repeat Digit 2 ++ [Lit "T"] ++ repeat Digit 2 ++ [Lit ":"]
   ++ repeat Digit 2 ++ [Lit ":"] ++ repeat Digit 2 ++ [Lit "."]
   ++ repeat Digit 3 ++ [Lit "Z"])%list.

(** ISO 8601 as ECMAScript writes it: four-digit years, or a sign and six
    digits. *)
Definition is_iso8601 (s : string) : bool :=
  (matches iso_pattern s || matches (Sign :: Digit :: Digit :: iso_pattern) s)
  %bool.

(** ["<ISO timestamp> - <status> - <description>: <original> → <resolved>"]
    with the status one of [statuses]. *)
Definition entry_format (statuses : list string) (entry : string) : Prop :=
  exists timestamp status description original resolved,
    is_iso8601 timestamp = true
    /\ In status statuses
    /\ entry = timestamp ++ " - " ++ status ++ " - " ++ description
                 ++ ": " ++ original ++ " → " ++ resolved.

(** The statuses the specification names, and the ones [logHealing]
    writes. *)
Definition spec_statuses : list string := ["HEALED"; "FAILED"].
Definition written_statuses : list string := ["🔧 HEALED"; "❌ FAILED"].

(** The report document: exactly the fields [timestamp],
    [totalHealingAttempts], [healingLog] and [config], over the log
    [log]. *)
Definition report_shape (statuses : list string) (cfg : SelfHealingConfig)
    (log : list string) (document : Json) : Prop :=
  exists timestamp,
    document
    = JObject [ ("timestamp", JString timestamp);
                ("totalHealingAttempts", JNumber (Z.of_nat (List.length log)));
                ("healingLog", JArray (map JString log));
                ("config",
                 JObject [ ("maxRetries", JNumber (maxRetries cfg));
                           ("retryDelay", JNumber (retryDelay cfg));
                           ("enableLogging", JBool (enableLogging cfg));
                           ("screenshotOnFailure",
                            JBool (screenshotOnFailure cfg)) ]) ]
    /\ is_iso8601 timestamp = true
    /\ Forall (entry_format statuses) log.

(** The document [exportHealingReport] hands to the write. *)
Definition exported_document (env : Env) (cfg : SelfHealingConfig)
    (st : State) : Json :=
  report_document cfg (toISOString (env_clock env (trace st)))
    (healingLog st).

(** The public operations of an engine instance, and the states a fresh
    instance reaches through them. *)
Inductive ApiCall :=
| CallFindElement (strategy : SelectorStrategy)
| CallClick (strategy : SelectorStrategy)
| CallFill (strategy : SelectorStrategy) (value : string)
| CallGetText (strategy : SelectorStrategy)
| CallGetHealingLog
| CallExportHealingReport
| CallClearLog.

Definition perform (env : Env) (cfg : SelfHealingConfig) (c : ApiCall)
    (st : State) : State :=
  match c with
  | CallFindElement s => snd (findElement env cfg s st)
  | CallClick s => snd (click env cfg s st)
  | CallFill s v => snd (fill env cfg s v st)
  | CallGetText s => snd (getText env cfg s st)
  | CallGetHealingLog => snd (getHealingLog st)
  | CallExportHealingReport => snd (exportHealingReport env cfg st)
  | CallClearLog => snd (clearLog st)
  end.

Definition run_calls (env : Env) (cfg : SelfHealingConfig)
    (calls : list ApiCall) : State :=
  fold_left (fun st c => perform env cfg c st) calls initial_state.

(** The persisted report in the words of the specification. *)
Definition spec_report_format (env : Env) (cfg : SelfHealingConfig)
    (st : State) : Prop :=
  report_shape spec_statuses cfg (healingLog st)
    (exported_document env cfg st).

(* ================================================================== *)
(** ** Action tactics *)

(** An escalation tactic that went through: forced click, script click,
    keyboard fill (its last call is the typing), script fill. *)
Definition escalation_succeeded (e : Event) : bool :=
  match e with
  | EAction (AClick _ true) None => true
  | EAction (AEvaluate _ JsClick) None => true
  | EAction (AKeyboardType _) None => true
  | EAction (AEvaluate _ (JsSetValue _)) None => true
  | _ => false
  end.

(** The escalation steps of [click] (forced click, script click) and of
    [getText] (the two alternate extractions), whatever their outcome. *)
Definition click_escalation (e : Event) : bool :=
  match e with
  | EAction (AClick _ true) _ => true
  | EAction (AEvaluate _ JsClick) _ => true
  | _ => false
  end.

Definition text_escalation (e : Event) : bool :=
  match e with
  | EText (QInnerText _) _ => true
  | EText (QEvaluateText _) _ => true
  | _ => false
  end.

(** Side effects of the action layer in the words of the specification:
    every escalation step appends an entry to the healing log. *)
Definition spec_escalations_logged (escalation : Event -> bool)
    (before after : State) : Prop :=
  List.length (new_entries before after)
  = List.length (filter escalation (new_events before after)).

(** An entry recording that [s] was healed. *)
Definition healed_entry (s : SelectorStrategy) (entry : string) : Prop :=
  exists t tactic,
    entry = logEntry (toISOString t) false (description s) (primary s) tactic.

(** [accounted s st st']: from [st] to [st'] the history and the log only
    grew, by as many HEALED entries as escalation tactics went through,
    and no screenshot was taken. *)
Definition accounted (s : SelectorStrategy) (st st' : State) : Prop :=
  exists evs entries,
    trace st' = (trace st ++ evs)%list
    /\ healingLog st' = (healingLog st ++ entries)%list
    /\ List.length entries = List.length (filter escalation_succeeded evs)
    /\ Forall (healed_entry s) entries
    /\ screenshots evs = 0%nat.

(** A computation all of whose runs are related by [R]. *)
Definition follows (R : State -> State -> Prop) {A} (m : M A) : Prop :=
  forall st, R st (snd (m st)).

(** An element whose [textContent] cannot be read, but whose [innerText]
    can. *)
Definition inner_text_only : Env :=
  fixed_env (fun _ => true) (fun _ => true)
    (fun q => match q with
              | QInnerText _ => inr (Some "Products")
              | _ => inl (JsError "rejected")
              end).

(** Two configurations that differ at most in [enableLogging]. *)
Definition same_but_logging (c1 c2 : SelfHealingConfig) : Prop :=
  maxRetries c1 = maxRetries c2
  /\ retryDelay c1 = retryDelay c2
  /\ screenshotOnFailure c1 = screenshotOnFailure c2.

(** Two states that differ at most in the console output. *)
Definition same_world (st1 st2 : State) : Prop :=
  trace st1 = trace st2 /\ healingLog st1 = healingLog st2.

Definition sim {A} (m1 m2 : M A) : Prop :=
  forall st1 st2,
    same_world st1 st2 ->
    fst (m1 st1) = fst (m2 st2) /\ same_world (snd (m1 st1)) (snd (m2 st2)).

Definition silent_config : SelfHealingConfig :=
  {| maxRetries := 3; retryDelay := 1000;
     enableLogging := false; screenshotOnFailure := true |}.

(** An operation that fails at every invocation of a schedule carried out
    from [st]. *)
Fixpoint fails_throughout {T} (env : Env) (operation : M T)
    (steps : list RetryStep) (st : State) : Prop :=
  match steps with
  | [] => True
  | Invoke :: rest =>
      exists e st',
        operation st = (Throw e, st')
        /\ fails_throughout env operation rest st'
  | Backoff delay :: rest =>
      fails_throughout env operation rest
        (snd (waitForTimeout env delay st))
  end.

(** Every backoff wait of a schedule carried out from [st] completes:
    the page's timer is not rejected. *)
Fixpoint waits_complete {T} (env : Env) (operation : M T)
    (steps : list RetryStep) (st : State) : Prop :=
  match steps with
  | [] => True
  | Invoke :: rest => waits_complete env operation rest (snd (operation st))
  | Backoff delay :: rest =>
      env_action env (trace st) (AWaitForTimeout delay) = None
      /\ waits_complete env operation rest
           (snd (waitForTimeout env delay st))
  end.

(** A page that is closed after [n] calls: until then a click is rejected
    (something covers the element) and every other call completes; from
    then on every call, the timer's included, is rejected. *)
Definition closed_page_error : Error :=
  JsError "Target page, context or browser has been closed".

Definition page_closed_after (n : nat) : Env :=
  {| env_action := fun h a =>
       if Nat.ltb (List.length h) n then
         match a with
         | AClick _ _ => Some (JsError "intercepted")
         | _ => None
         end
       else Some closed_page_error;
     env_text := fun h _ =>
       if Nat.ltb (List.length h) n then inr None
       else inl closed_page_error;
     env_clock := fun h => Z.of_nat (List.length h);
     env_toLowerCase := ascii_toLowerCase |}.

(** Events that are neither a screenshot nor an escalation tactic going
    through. *)
Definition standard_event (e : Event) : Prop :=
  escalation_succeeded e = false /\ is_screenshot e = false.

(** From [st] to [st'] the history grew by text queries only. *)
Definition only_text_queries (st st' : State) : Prop :=
  exists evs,
    trace st' = (trace st ++ evs)%list
    /\ Forall (fun e => exists q o, e = EText q o) evs.

(** From [st] to [st'] the healing log only grew, by entries satisfying
    [P]. *)
Definition log_grows (P : string -> Prop) (st st' : State) : Prop :=
  exists entries,
    healingLog st' = (healingLog st ++ entries)%list /\ Forall P entries.

Definition any_event (e : Event) : Prop := True.

(** The first [n] characters of a string, and what follows them. *)
Fixpoint string_firstn (n : nat) (s : string) : string :=
  match n, s with
  | S n', String a s' => String a (string_firstn n' s')
  | _, _ => EmptyString
  end.

Fixpoint string_skipn (n : nat) (s : string) : string :=
  match n, s with
  | S n', String _ s' => string_skipn n' s'
  | _, _ => s
  end.

(* ================================================================== *)
(** ** The page object: class [SelfHealingBasePage] *)

(** The configuration its constructor gives the engine. *)
Definition base_page_config : SelfHealingConfig :=
  make_config
    (Some {| p_maxRetries := Some 3;
             p_retryDelay := Some 1000;
             p_enableLogging := Some true;
             p_screenshotOnFailure := Some true |}).

Definition named (s : SelectorStrategy) : string :=
  description s ++ " (" ++ primary s ++ ")".

Section BasePage.

Variable env : Env.

Definition healingClick (strategy : SelectorStrategy) : M bool :=
  success <- click env base_page_config strategy;;
  if negb success
  then throw (JsError ("Failed to click element: " ++ named strategy))
  else ret success.

Definition healingFill (strategy : SelectorStrategy) (value : string)
    : M bool :=
  success <- fill env base_page_config strategy value;;
  if negb success
  then throw (JsError ("Failed to fill element: " ++ named strategy
                         ++ " with value: " ++ value))
  else ret success.

Definition healingGetText (strategy : SelectorStrategy) : M string :=
  text <- getText env base_page_config strategy;;
  match text with
  | None =>
      throw (JsError ("Failed to get text from element: " ++ named strategy))
  | Some t => ret t
  end.

Definition healingFindElement (strategy : SelectorStrategy) : M Locator :=
  element <- findElement env base_page_config strategy;;
  match element with
  | None => throw (JsError ("Failed to find element: " ++ named strategy))
  | Some l => ret l
  end.

Definition healingIsVisible (strategy : SelectorStrategy) : M bool :=
  try_catch
    (element <- findElement env base_page_config strategy;;
     ret (match element with Some _ => true | None => false end))
    (fun _ => ret false).

(** [healingWaitForElement]: the polling loop, with [fuel] bounding the
    number of iterations the model follows ([None] when it is used up). *)
Fixpoint wait_loop (strategy : SelectorStrategy) (timeout startTime : Z)
    (fuel : nat) (st : State) : option (Result Locator * State) :=
  match fuel with
  | O => None
  | S fuel' =>
      match now env st with
      | (Throw e, st1) => Some (Throw e, st1)
      | (Ok t, st1) =>
          if t - startTime <? timeout then
            match try_catch (findElement env base_page_config strategy)
                    (fun _ => ret None) st1 with
            | (Ok (Some element), st2) => Some (Ok element, st2)
            | (Ok None, st2) =>
                match waitForTimeout env 1000 st2 with
                | (Ok _, st3) =>
                    wait_loop strategy timeout startTime fuel' st3
                | (Throw e, st3) => Some (Throw e, st3)
                end
            | (Throw e, st2) => Some (Throw e, st2)
            end
          else
            Some (Throw (JsError ("Timeout waiting for element: "
                                    ++ named strategy)), st1)
      end
  end.

Definition healingWaitForElement (strategy : SelectorStrategy) (timeout : Z)
    (fuel : nat) (st : State) : option (Result Locator * State) :=
  match now env st with
  | (Ok startTime, st0) => wait_loop strategy timeout startTime fuel st0
  | (Throw e, st0) => Some (Throw e, st0)
  end.

Definition page_getHealingLog : M (list string) := getHealingLog.

Definition clearHealingLog : M unit := clearLog.

End BasePage.

(* ================================================================== *)
(** ** Further vocabulary *)

(** [c] is the first candidate of [cs] to show up when they are tried in
    order from history [h]; [h1] is the history in which it is tried. *)
Definition first_success (env : Env) (h : list Event)
    (cs : list (string * Z)) (c : string * Z) (h1 : list Event) : Prop :=
  exists cs1 cs2,
    cs = (cs1 ++ c :: cs2)%list
    /\ all_fail env h cs1 h1
    /\ env_action env h1 (AWaitFor (fst c) (snd c)) = None.

(** [found_at env h cs i c]: tried in order from history [h], the first
    [i] candidates of [cs] fail and the next one, [c], shows up. *)
Definition found_at (env : Env) (h : list Event) (cs : list (string * Z))
    (i : nat) (c : string * Z) : Prop :=
  exists cs1 cs2 h1,
    cs = (cs1 ++ c :: cs2)%list
    /\ List.length cs1 = i
    /\ all_fail env h cs1 h1
    /\ env_action env h1 (AWaitFor (fst c) (snd c)) = None.

(** The sum of the bounds given to a list of waits. *)
Fixpoint total_timeout (waits : list (string * Z)) : Z :=
  match waits with
  | [] => 0
  | c :: rest => snd c + total_timeout rest
  end.

(** What a resolution may do to the page: wait for a selector, read the
    clock, take a full-page screenshot. *)
Definition resolution_event (e : Event) : Prop :=
  match e with
  | EAction (AWaitFor _ _) _ => True
  | EAction (AScreenshot _ true) _ => True
  | EClock _ => True
  | _ => False
  end.

(** Events that carry a value to put in a field carry [v]. *)
Definition carries_only (v : string) (e : Event) : Prop :=
  match e with
  | EAction (AFill _ x) _ => x = v
  | EAction (AKeyboardType x) _ => x = v
  | EAction (AEvaluate _ (JsSetValue x)) _ => x = v
  | _ => True
  end.

(** From [st] to [st'] the history grew by events satisfying [Q]. *)
Definition history_grows (Q : Event -> Prop) (st st' : State) : Prop :=
  exists evs, trace st' = (trace st ++ evs)%list /\ Forall Q evs.

(** A click, of any kind, that the page accepted; a way of filling a field
    that went through to its end. *)
Definition click_went_through (e : Event) : bool :=
  match e with
  | EAction (AClick _ _) None => true
  | EAction (AEvaluate _ JsClick) None => true
  | _ => false
  end.

Definition fill_went_through (e : Event) : bool :=
  match e with
  | EAction (AFill _ _) None => true
  | EAction (AKeyboardType _) None => true
  | EAction (AEvaluate _ (JsSetValue _)) None => true
  | _ => false
  end.

(** A computation that returns [true] exactly when one of the events it
    added satisfies [went], and [false] otherwise. *)
Definition reports (went : Event -> bool) (m : M bool) : Prop :=
  forall st,
    exists evs,
      trace (snd (m st)) = (trace st ++ evs)%list
      /\ fst (m st) = Ok (existsb went evs).

(** A tactic: it returns [true] when an event it added satisfies [went],
    and throws when none does. *)
Definition tactic (went : Event -> bool) (m : M bool) : Prop :=
  forall st,
    exists evs,
      trace (snd (m st)) = (trace st ++ evs)%list
      /\ ((fst (m st) = Ok true /\ existsb went evs = true)
          \/ (exists e, fst (m st) = Throw e /\ existsb went evs = false)).

Definition never_throws {A} (m : M A) : Prop :=
  forall st, exists a, fst (m st) = Ok a.

(** A clock that never goes back, and on which a timer wait of [d] ms
    that completes takes at least [d] ms. *)
Definition timers_take_time (env : Env) : Prop :=
  (forall h e, env_clock env h <= env_clock env (h ++ [e]))
  /\ (forall h d,
        env_clock env h + d
        <= env_clock env (h ++ [EAction (AWaitForTimeout d) None])).

(** The time a history took: a timer wait that completes lasts its
    delay, a wait for a selector that never shows up lasts its bound. *)
Fixpoint elapsed (h : list Event) : Z :=
  match h with
  | [] => 0
  | EAction (AWaitForTimeout d) None :: r => Z.max 0 d + elapsed r
  | EAction (AWaitFor _ t) (Some _) :: r => Z.max 0 t + elapsed r
  | _ :: r => elapsed r
  end.

(** A page showing nothing, every other call working, with [elapsed] as
    its clock. *)
Definition timed_blank_page : Env :=
  {| env_action := fun _ a =>
       match a with
       | AWaitFor _ _ => Some (JsError "Timeout exceeded")
       | _ => None
       end;
     env_text := fun _ _ => inr None;
     env_clock := elapsed;
     env_toLowerCase := ascii_toLowerCase |}.

(** The first [k] attempts of the retry loop, each followed by its
    backoff wait. *)
Definition failed_attempts (cfg : SelfHealingConfig) (k : nat)
    : list RetryStep :=
  flat_map
    (fun attempt =>
       [Invoke; Backoff (retryDelay cfg * 2 ^ (attempt - 1))])
    (map Z.of_nat (seq 1 k)).

(** An element found at once whose [textContent] is [null]. *)
Definition null_text_page : Env :=
  fixed_env (fun _ => true) (fun _ => true) (fun _ => inr None).

Definition zero_retries : SelfHealingConfig :=
  {| maxRetries := 0; retryDelay := 1000;
     enableLogging := true; screenshotOnFailure := true |}.

(** A click that is rejected once and then accepted. *)
Definition second_click_works : Env :=
  {| env_action := fun h a =>
       match a, h with
       | AClick _ false, [] => Some (JsError "intercepted")
       | _, _ => None
       end;
     env_text := fun _ _ => inr None;
     env_clock := fun h => Z.of_nat (List.length h);
     env_toLowerCase := ascii_toLowerCase |}.

(** Every run of [m] adds at most [n] events satisfying [f]. *)
Definition at_most (f : Event -> bool) (n : nat) {A} (m : M A) : Prop :=
  forall st,
    exists evs,
      trace (snd (m st)) = (trace st ++ evs)%list
      /\ (List.length (filter f evs) <= n)%nat.

Definition is_standard_click (e : Event) : bool :=
  match e with EAction (AClick _ false) _ => true | _ => false end.

Definition is_forced_click (e : Event) : bool :=
  match e with EAction (AClick _ true) _ => true | _ => false end.

Definition is_script_call (e : Event) : bool :=
  match e with EAction (AEvaluate _ _) _ => true | _ => false end.

Definition is_timer_wait (e : Event) : bool :=
  match e with EAction (AWaitForTimeout _) _ => true | _ => false end.

Definition is_field_fill (e : Event) : bool :=
  match e with EAction (AFill _ _) _ => true | _ => false end.

Definition is_typing (e : Event) : bool :=
  match e with EAction (AKeyboardType _) _ => true | _ => false end.
(* ================================================================== *)
(** ** How the primitive computations run *)

Unset Implicit Arguments.

Lemma page_call_ok env a st :
  env_action env (trace st) a = None ->
  page_call env a st = (Ok tt, record_event (EAction a None) st).
Proof. intros H. unfold page_call. now rewrite H. Qed.

Lemma page_call_throw env a e st :
  env_action env (trace st) a = Some e ->
  page_call env a st = (Throw e, record_event (EAction a (Some e)) st).
Proof. intros H. unfold page_call. now rewrite H. Qed.

Lemma logHealing_run env cfg o h d f st :
  logHealing env cfg o h d f st =
  (Ok tt,
   {| trace := trace st ++ [EClock (env_clock env (trace st))];
      healingLog := healingLog st
        ++ [logEntry (toISOString (env_clock env (trace st))) f d o h];
      console := console st
        ++ (if enableLogging cfg
            then [logEntry (toISOString (env_clock env (trace st))) f d o h]
            else []) |}).
Proof.
  unfold logHealing, bind, now, push_log, when, console_log, ret; simpl.
  destruct (enableLogging cfg); simpl; [reflexivity|].
  now rewrite app_nil_r.
Qed.

Lemma all_fail_app env h cs1 cs2 h'' :
  all_fail env h (cs1 ++ cs2) h'' <->
  exists h', all_fail env h cs1 h' /\ all_fail env h' cs2 h''.
Proof.
  revert h. induction cs1 as [|c cs1 IH]; intros h; simpl.
  - split.
    + intros H. exists h. split; [constructor | exact H].
    + intros (h' & H1 & H2). inversion H1; subst. exact H2.
  - split.
    + intros H. inversion H; subst.
      apply IH in H5. destruct H5 as (h' & H1 & H2).
      exists h'. split; [econstructor; eassumption | exact H2].
    + intros (h' & H1 & H2). inversion H1; subst.
      econstructor; [eassumption|]. apply IH. eauto.
Qed.

Lemma waits_of_app evs1 evs2 :
  waits_of (evs1 ++ evs2) = (waits_of evs1 ++ waits_of evs2)%list.
Proof.
  induction evs1 as [|e evs1 IH]; simpl; [reflexivity|].
  destruct e as [a o| |]; try exact IH.
  destruct a; try exact IH. simpl. now rewrite IH.
Qed.

Lemma screenshots_app evs1 evs2 :
  screenshots (evs1 ++ evs2) = (screenshots evs1 + screenshots evs2)%nat.
Proof. unfold screenshots. now rewrite filter_app, length_app. Qed.

(** A run of failed waits adds exactly those waits to the history. *)
Lemma all_fail_events env h cs h' :
  all_fail env h cs h' ->
  exists evs, h' = (h ++ evs)%list /\ waits_of evs = cs
              /\ screenshots evs = 0%nat.
Proof.
  induction 1 as [h | h c e cs h' Hc _ (evs & -> & Hw & Hs)].
  - exists []. now rewrite app_nil_r.
  - exists (wait_event c (Some e) :: evs). rewrite <- app_assoc. simpl.
    destruct c as [sel t]. simpl. rewrite Hw.
    repeat split. exact Hs.
Qed.

Lemma all_fail_deterministic env h cs h1 h2 :
  all_fail env h cs h1 -> all_fail env h cs h2 -> h1 = h2.
Proof.
  intros H1. revert h2. induction H1; intros h2 H2; inversion H2; subst.
  - reflexivity.
  - apply IHall_fail. congruence.
Qed.

Lemma new_events_app st st' evs :
  trace st' = (trace st ++ evs)%list -> new_events st st' = evs.
Proof.
  intros H. unfold new_events. rewrite H.
  rewrite skipn_app, skipn_all, Nat.sub_diag. reflexivity.
Qed.

Lemma new_entries_app st st' es :
  healingLog st' = (healingLog st ++ es)%list -> new_entries st st' = es.
Proof.
  intros H. unfold new_entries. rewrite H.
  rewrite skipn_app, skipn_all, Nat.sub_diag. reflexivity.
Qed.

Ltac run_monad :=
  cbv beta iota zeta delta
    [bind try_catch ret throw when console_log push_log gets
     locate_and_wait now waitForTimeout].

(* ================================================================== *)
(** ** The candidate loops *)

Lemma tier_app t l1 l2 : tier t (l1 ++ l2) = (tier t l1 ++ tier t l2)%list.
Proof. apply map_app. Qed.

Lemma candidates_tiers env s :
  candidates env s =
  ((primary s, primary_timeout)
   :: tier fallback_timeout (fallbacks s)
   ++ tier heuristic_timeout
        (heuristic_candidates env (elementType s) (description s)))%list.
Proof. reflexivity. Qed.

(** Whatever the page does, a tier either fails throughout or has a first
    candidate that shows up. *)
Lemma tier_cases env t l : forall h,
  (exists h', all_fail env h (tier t l) h') \/
  (exists l1 c l2 h',
      l = (l1 ++ c :: l2)%list /\ all_fail env h (tier t l1) h'
      /\ env_action env h' (AWaitFor c t) = None).
Proof.
  induction l as [|c l IH]; intros h.
  - left. exists h. constructor.
  - destruct (env_action env h (AWaitFor c t)) as [e|] eqn:Hc.
    + destruct (IH (h ++ [wait_event (c, t) (Some e)])%list)
        as [(h' & H) | (l1 & c' & l2 & h' & -> & H & Hok)].
      * left. exists h'. simpl. econstructor; eassumption.
      * right. exists (c :: l1), c', l2, h'. repeat split; [|exact Hok].
        simpl. econstructor; eassumption.
    + right. exists [], c, l, h. repeat split; [constructor | exact Hc].
Qed.

Lemma all_fail_nil_inv env h h' : all_fail env h [] h' -> h' = h.
Proof. now inversion 1. Qed.

Lemma all_fail_cons_inv env h c cs h' :
  all_fail env h (c :: cs) h' ->
  exists e, env_action env h (AWaitFor (fst c) (snd c)) = Some e
            /\ all_fail env (h ++ [wait_event c (Some e)]) cs h'.
Proof. inversion 1; subst. eauto. Qed.

Lemma tryStrategies_all_fail env cs : forall st h',
  all_fail env (trace st) (tier heuristic_timeout cs) h' ->
  tryStrategies env cs st = (Ok None, with_trace h' st).
Proof.
  induction cs as [|c cs IH]; intros st h' H; simpl in *.
  - apply all_fail_nil_inv in H. subst. now destruct st.
  - apply all_fail_cons_inv in H. destruct H as (e & Hc & H). simpl in Hc.
    run_monad. rewrite (page_call_throw _ _ _ _ Hc). run_monad.
    erewrite IH; [reflexivity | exact H].
Qed.

Lemma tryStrategies_first env cs1 c cs2 : forall st h',
  all_fail env (trace st) (tier heuristic_timeout cs1) h' ->
  env_action env h' (AWaitFor c heuristic_timeout) = None ->
  tryStrategies env (cs1 ++ c :: cs2) st =
  (Ok (Some (Loc c)),
   with_trace (h' ++ [wait_event (c, heuristic_timeout) None]) st).
Proof.
  induction cs1 as [|c1 cs1 IH]; intros st h' H Hok; simpl in *.
  - apply all_fail_nil_inv in H. subst.
    run_monad. now rewrite (page_call_ok _ _ _ Hok).
  - apply all_fail_cons_inv in H. destruct H as (e & Hc & H). simpl in Hc.
    run_monad. rewrite (page_call_throw _ _ _ _ Hc). run_monad.
    erewrite IH; [reflexivity | exact H | exact Hok].
Qed.

Lemma try_fallbacks_all_fail env cfg p d fbs : forall i st h',
  all_fail env (trace st) (tier fallback_timeout fbs) h' ->
  exists out,
    try_fallbacks env cfg p d i fbs st =
    (Ok None, with_console out (with_trace h' st)).
Proof.
  induction fbs as [|f fbs IH]; intros i st h' H; simpl in *.
  - apply all_fail_nil_inv in H. subst. exists (console st). now destruct st.
  - apply all_fail_cons_inv in H. destruct H as (e & Hc & H). simpl in Hc.
    run_monad. rewrite (page_call_throw _ _ _ _ Hc). run_monad.
    destruct (enableLogging cfg);
      match goal with
      | |- context [try_fallbacks _ _ _ _ _ _ ?s] =>
          destruct (IH (i + 1) s h' H) as [out Hout]
      end; rewrite Hout; now exists out.
Qed.

Lemma try_fallbacks_first env cfg p d fbs1 f fbs2 : forall i st h',
  all_fail env (trace st) (tier fallback_timeout fbs1) h' ->
  env_action env h' (AWaitFor f fallback_timeout) = None ->
  let h1 := (h' ++ [wait_event (f, fallback_timeout) None])%list in
  let t := env_clock env h1 in
  exists out,
    try_fallbacks env cfg p d i (fbs1 ++ f :: fbs2) st =
    (Ok (Some (Loc f)),
     {| trace := h1 ++ [EClock t];
        healingLog := healingLog st ++ [logEntry (toISOString t) false d p f];
        console := out |}).
Proof.
  induction fbs1 as [|f1 fbs1 IH]; intros i st h' H Hok; simpl in *.
  - apply all_fail_nil_inv in H. subst.
    run_monad. rewrite (page_call_ok _ _ _ Hok). run_monad.
    rewrite logHealing_run. eexists. reflexivity.
  - apply all_fail_cons_inv in H. destruct H as (e & Hc & H). simpl in Hc.
    run_monad. rewrite (page_call_throw _ _ _ _ Hc). run_monad.
    destruct (enableLogging cfg);
      match goal with
      | |- context [try_fallbacks _ _ _ _ _ _ ?s] =>
          destruct (IH (i + 1) s h' H Hok) as [out Hout]
      end; rewrite Hout; now exists out.
Qed.

(* ================================================================== *)
(** ** [findElement], tier by tier *)

Lemma try_primary_ok env cfg p d st :
  env_action env (trace st) (AWaitFor p primary_timeout) = None ->
  exists out,
    try_primary env cfg p d st =
    (Ok (Some (Loc p)),
     with_console out
       (record_event (wait_event (p, primary_timeout) None) st)).
Proof.
  intros H. unfold try_primary. run_monad.
  rewrite (page_call_ok _ _ _ H). run_monad.
  destruct (enableLogging cfg); eexists; reflexivity.
Qed.

Lemma try_primary_fail env cfg p d e st :
  env_action env (trace st) (AWaitFor p primary_timeout) = Some e ->
  exists out,
    try_primary env cfg p d st =
    (Ok None,
     with_console out
       (record_event (wait_event (p, primary_timeout) (Some e)) st)).
Proof.
  intros H. unfold try_primary. run_monad.
  rewrite (page_call_throw _ _ _ _ H). run_monad.
  destruct (enableLogging cfg); eexists; reflexivity.
Qed.

Lemma findElement_primary env cfg s st :
  env_action env (trace st) (AWaitFor (primary s) primary_timeout) = None ->
  exists out,
    findElement env cfg s st =
    (Ok (Some (Loc (primary s))),
     with_console out
       (record_event (wait_event (primary s, primary_timeout) None) st)).
Proof.
  intros H. unfold findElement.
  destruct (try_primary_ok env cfg (primary s) (description s) st H)
    as [out E].
  run_monad. rewrite E. now exists out.
Qed.

Lemma findElement_fallback env cfg s st l1 f l2 h :
  all_fail env (trace st)
    ((primary s, primary_timeout) :: tier fallback_timeout l1) h ->
  fallbacks s = (l1 ++ f :: l2)%list ->
  env_action env h (AWaitFor f fallback_timeout) = None ->
  let h1 := (h ++ [wait_event (f, fallback_timeout) None])%list in
  let t := env_clock env h1 in
  exists out,
    findElement env cfg s st =
    (Ok (Some (Loc f)),
     {| trace := h1 ++ [EClock t];
        healingLog := healingLog st
          ++ [logEntry (toISOString t) false (description s) (primary s) f];
        console := out |}).
Proof.
  intros H Hf Hok h1 t.
  apply all_fail_cons_inv in H. destruct H as (e & Hp & H). simpl in Hp.
  unfold findElement.
  destruct (try_primary_fail env cfg (primary s) (description s) _ st Hp)
    as [out E].
  run_monad. rewrite E, Hf.
  match goal with
  | |- context [try_fallbacks _ _ ?p ?d ?i _ ?st0] =>
      destruct (try_fallbacks_first env cfg p d l1 f l2 i st0 h H Hok)
        as [out' E']
  end.
  rewrite E'. now exists out'.
Qed.

Lemma findElement_heuristic env cfg s st l1 c l2 h :
  all_fail env (trace st)
    ((primary s, primary_timeout) :: tier fallback_timeout (fallbacks s)
     ++ tier heuristic_timeout l1) h ->
  heuristic_candidates env (elementType s) (description s)
    = (l1 ++ c :: l2)%list ->
  env_action env h (AWaitFor c heuristic_timeout) = None ->
  let h1 := (h ++ [wait_event (c, heuristic_timeout) None])%list in
  let t := env_clock env h1 in
  exists out,
    findElement env cfg s st =
    (Ok (Some (Loc c)),
     {| trace := h1 ++ [EClock t];
        healingLog := healingLog st
          ++ [logEntry (toISOString t) false (description s) (primary s)
                "intelligent-fallback"];
        console := out |}).
Proof.
  intros H Hc Hok h1 t.
  apply all_fail_cons_inv in H. destruct H as (e & Hp & H). simpl in Hp.
  apply all_fail_app in H. destruct H as (hf & Hfb & Hh).
  unfold findElement.
  destruct (try_primary_fail env cfg (primary s) (description s) _ st Hp)
    as [out E].
  run_monad. rewrite E.
  match goal with
  | |- context [try_fallbacks _ _ ?p ?d ?i _ ?st0] =>
      destruct (try_fallbacks_all_fail env cfg p d (fallbacks s) i st0 hf Hfb)
        as [out' E']
  end.
  rewrite E'. unfold intelligentFallback. rewrite Hc.
  erewrite tryStrategies_first; [| exact Hh | exact Hok].
  rewrite logHealing_run. eexists. reflexivity.
Qed.

Lemma findElement_exhausted env cfg s st h :
  all_fail env (trace st) (candidates env s) h ->
  exists out,
    findElement env cfg s st =
    all_strategies_failed env cfg (primary s) (description s)
      (with_console out (with_trace h st)).
Proof.
  intros H. rewrite candidates_tiers in H.
  apply all_fail_cons_inv in H. destruct H as (e & Hp & H). simpl in Hp.
  apply all_fail_app in H. destruct H as (hf & Hfb & Hh).
  unfold findElement.
  destruct (try_primary_fail env cfg (primary s) (description s) _ st Hp)
    as [out E].
  run_monad. rewrite E.
  match goal with
  | |- context [try_fallbacks _ _ ?p ?d ?i _ ?st0] =>
      destruct (try_fallbacks_all_fail env cfg p d (fallbacks s) i st0 hf Hfb)
        as [out' E']
  end.
  rewrite E'. unfold intelligentFallback.
  erewrite tryStrategies_all_fail; [| exact Hh].
  exists out'. reflexivity.
Qed.

(** The three ways the failure path ends. *)
Lemma all_strategies_failed_no_screenshot env cfg p d st :
  screenshotOnFailure cfg = false ->
  let t := env_clock env (trace st) in
  exists out,
    all_strategies_failed env cfg p d st =
    (Ok None,
     {| trace := trace st ++ [EClock t];
        healingLog := healingLog st
          ++ [logEntry (toISOString t) true d p "FAILED"];
        console := out |}).
Proof.
  intros Hs t. unfold all_strategies_failed. rewrite Hs. run_monad.
  rewrite logHealing_run. eexists. reflexivity.
Qed.

Lemma all_strategies_failed_screenshot env cfg p d st :
  screenshotOnFailure cfg = true ->
  let t0 := env_clock env (trace st) in
  let shot := AScreenshot (failure_screenshot_path t0) true in
  let h0 := (trace st ++ [EClock t0])%list in
  env_action env h0 shot = None ->
  let h1 := (h0 ++ [EAction shot None])%list in
  let t := env_clock env h1 in
  exists out,
    all_strategies_failed env cfg p d st =
    (Ok None,
     {| trace := h1 ++ [EClock t];
        healingLog := healingLog st
          ++ [logEntry (toISOString t) true d p "FAILED"];
        console := out |}).
Proof.
  intros Hs t0 shot h0 Hok h1 t. unfold all_strategies_failed.
  rewrite Hs. run_monad.
  pose proof (page_call_ok env shot (record_event (EClock t0) st) Hok) as E.
  subst h1 t h0 shot t0. cbv zeta in E. rewrite E.
  run_monad. rewrite logHealing_run. eexists. reflexivity.
Qed.

Lemma all_strategies_failed_throw env cfg p d st e :
  screenshotOnFailure cfg = true ->
  let t0 := env_clock env (trace st) in
  let shot := AScreenshot (failure_screenshot_path t0) true in
  let h0 := (trace st ++ [EClock t0])%list in
  env_action env h0 shot = Some e ->
  all_strategies_failed env cfg p d st =
  (Throw e,
   {| trace := h0 ++ [EAction shot (Some e)];
      healingLog := healingLog st;
      console := console st |}).
Proof.
  intros Hs t0 shot h0 Hko. unfold all_strategies_failed.
  rewrite Hs. run_monad.
  pose proof (page_call_throw env shot e (record_event (EClock t0) st) Hko)
    as E.
  subst h0 shot t0. cbv zeta in E. rewrite E. reflexivity.
Qed.

(* ================================================================== *)
(** ** Every way a resolution can go *)

Lemma findElement_cases env cfg s st :
  let r := findElement env cfg s st in
  exists evs,
    trace (snd r) = (trace st ++ evs)%list /\
    ((exists c rest, fst r = Ok (Some c)
                     /\ candidates env s = (waits_of evs ++ rest)%list
                     /\ screenshots evs = 0%nat)
     \/ (fst r = Ok None /\ waits_of evs = candidates env s)
     \/ (exists h e,
            fst r = Throw e /\ waits_of evs = candidates env s
            /\ healingLog (snd r) = healingLog st
            /\ all_fail env (trace st) (candidates env s) h
            /\ screenshotOnFailure cfg = true
            /\ env_action env (shot_history env h) (failure_shot env h)
               = Some e)).
Proof.
  intros r. subst r.
  destruct (env_action env (trace st) (AWaitFor (primary s) primary_timeout))
    as [e|] eqn:Hp.
  2:{ destruct (findElement_primary env cfg s st Hp) as [out E].
      rewrite E. simpl. eexists. split; [reflexivity|].
      left. exists (Loc (primary s)). eexists. repeat split. }
  set (h0 := (trace st ++ [wait_event (primary s, primary_timeout) (Some e)])
               %list).
  destruct (tier_cases env fallback_timeout (fallbacks s) h0)
    as [(hf & Hf) | (l1 & f & l2 & hf & Hl & Hf & Hok)].
  2:{ assert (Hall : all_fail env (trace st)
                ((primary s, primary_timeout) :: tier fallback_timeout l1) hf)
        by (econstructor; [exact Hp | exact Hf]).
      destruct (findElement_fallback env cfg s st l1 f l2 hf Hall Hl Hok)
        as [out E].
      destruct (all_fail_events _ _ _ _ Hall) as (evs & -> & Hw & Hs0).
      rewrite E. simpl. rewrite <- !app_assoc.
      eexists. split; [reflexivity|].
      left. exists (Loc f). eexists. split; [reflexivity|].
      split; [|now rewrite screenshots_app, Hs0].
      rewrite waits_of_app, Hw, candidates_tiers, Hl, tier_app. simpl.
      rewrite <- !app_assoc. reflexivity. }
  destruct (tier_cases env heuristic_timeout
              (heuristic_candidates env (elementType s) (description s)) hf)
    as [(hh & Hh) | (l1 & c & l2 & hh & Hl & Hh & Hok)].
  2:{ assert (Hall : all_fail env (trace st)
                ((primary s, primary_timeout)
                 :: tier fallback_timeout (fallbacks s)
                 ++ tier heuristic_timeout l1) hh).
      { econstructor; [exact Hp|]. apply all_fail_app. eauto. }
      destruct (findElement_heuristic env cfg s st l1 c l2 hh Hall Hl Hok)
        as [out E].
      destruct (all_fail_events _ _ _ _ Hall) as (evs & -> & Hw & Hs0).
      rewrite E. simpl. rewrite <- !app_assoc.
      eexists. split; [reflexivity|].
      left. exists (Loc c). eexists. split; [reflexivity|].
      split; [|now rewrite screenshots_app, Hs0].
      rewrite waits_of_app, Hw, candidates_tiers, Hl, tier_app. simpl.
      rewrite <- !app_assoc. reflexivity. }
  assert (Hall : all_fail env (trace st) (candidates env s) hh).
  { rewrite candidates_tiers. econstructor; [exact Hp|].
    apply all_fail_app. eauto. }
  destruct (findElement_exhausted env cfg s st hh Hall) as [out E].
  destruct (all_fail_events _ _ _ _ Hall) as (evs & Hhh & Hw & _).
  rewrite E.
  destruct (screenshotOnFailure cfg) eqn:Hs.
  - destruct (env_action env (shot_history env hh) (failure_shot env hh))
      as [e'|] eqn:Hshot.
    + rewrite (all_strategies_failed_throw env cfg (primary s) (description s)
               (with_console out (with_trace hh st)) e' Hs Hshot).
      simpl. rewrite Hhh, <- !app_assoc.
      eexists. split; [reflexivity|].
      right. right. exists (trace st ++ evs)%list, e'.
      rewrite <- Hhh. repeat split; try assumption.
      rewrite waits_of_app. simpl. rewrite app_nil_r. exact Hw.
    + destruct (all_strategies_failed_screenshot env cfg (primary s)
                  (description s) (with_console out (with_trace hh st))
                  Hs Hshot) as [out' E'].
      rewrite E'. simpl. rewrite Hhh, <- !app_assoc.
      eexists. split; [reflexivity|].
      right. left. split; [reflexivity|].
      rewrite waits_of_app. simpl. rewrite app_nil_r. exact Hw.
  - destruct (all_strategies_failed_no_screenshot env cfg (primary s)
                (description s) (with_console out (with_trace hh st)) Hs)
      as [out' E'].
    rewrite E'. simpl. rewrite Hhh, <- !app_assoc.
    eexists. split; [reflexivity|].
    right. left. split; [reflexivity|].
    rewrite waits_of_app. simpl. rewrite app_nil_r. exact Hw.
Qed.

Lemma nth_error_split_firstn {A} (l : list A) i x :
  nth_error l i = Some x ->
  l = (firstn i l ++ x :: skipn (S i) l)%list
  /\ firstn (S i) l = (firstn i l ++ [x])%list.
Proof.
  revert i. induction l as [|a l IH]; intros [|i] H; simpl in *;
    try discriminate.
  - injection H as ->. split; reflexivity.
  - destruct (IH i H) as [E1 E2]. split.
    + f_equal. exact E1.
    + f_equal. exact E2.
Qed.

Lemma in_waits_of c t o evs :
  In (EAction (AWaitFor c t) o) evs -> In (c, t) (waits_of evs).
Proof.
  induction evs as [|e evs IH]; simpl; [tauto|].
  intros [-> | H].
  - now left.
  - destruct e as [a o'| |]; try (now apply IH).
    destruct a; try (now apply IH). right. now apply IH.
Qed.

Lemma in_tier c t t' l : In (c, t) (tier t' l) -> t = t'.
Proof.
  unfold tier. rewrite in_map_iff. intros (x & E & _). congruence.
Qed.

(* ================================================================== *)
(** ** Properties of the resolution engine *)

(** C2 (P2, first-success short-circuit): when the primary selector shows
    up, [findElement] returns the primary locator, the wait on the primary
    is the only call made on the page (no fallback, no heuristic
    candidate), and the healing log is left as it was. *)
Theorem primary_success_short_circuits env cfg s st :
  env_action env (trace st) (AWaitFor (primary s) primary_timeout) = None ->
  let r := findElement env cfg s st in
  fst r = Ok (Some (Loc (primary s)))
  /\ new_events st (snd r)
     = [EAction (AWaitFor (primary s) primary_timeout) None]
  /\ healingLog (snd r) = healingLog st.
Proof.
  intros H r. subst r.
  destruct (findElement_primary env cfg s st H) as [out E]. rewrite E.
  simpl. repeat split.
  now apply new_events_app.
Qed.

Lemma primary_success_short_circuits_witness :
  env_action full_page (trace initial_state)
    (AWaitFor (primary scenario_A) primary_timeout) = None
  /\ fst (findElement full_page default_config scenario_A initial_state)
     = Ok (Some (Loc "#bad-id")).
Proof.
  split; [reflexivity|].
  apply (primary_success_short_circuits full_page default_config scenario_A
           initial_state).
  reflexivity.
Defined.

(** C1 (P1, ordering): when the primary fails and fallback [i] is the first
    fallback to show up, [findElement] returns the locator of fallback
    [i]; the waits it made are the primary followed by fallbacks [0..i] in
    listed order, none of them a heuristic candidate's; one HEALED entry
    naming the fallback is appended. *)
Theorem first_fallback_wins env cfg s st i f h :
  all_fail env (trace st)
    ((primary s, primary_timeout)
     :: tier fallback_timeout (firstn i (fallbacks s))) h ->
  nth_error (fallbacks s) i = Some f ->
  env_action env h (AWaitFor f fallback_timeout) = None ->
  let r := findElement env cfg s st in
  let t := env_clock env (h ++ [EAction (AWaitFor f fallback_timeout) None]) in
  fst r = Ok (Some (Loc f))
  /\ trace (snd r)
     = (h ++ [EAction (AWaitFor f fallback_timeout) None; EClock t])%list
  /\ waits_of (new_events st (snd r))
     = (primary s, primary_timeout)
       :: tier fallback_timeout (firstn (S i) (fallbacks s))
  /\ (forall c o,
        ~ In (EAction (AWaitFor c heuristic_timeout) o)
             (new_events st (snd r)))
  /\ healingLog (snd r)
     = (healingLog st
        ++ [logEntry (toISOString t) false (description s) (primary s) f])
       %list.
Proof.
  intros Hall Hnth Hok r t. subst r t.
  destruct (nth_error_split_firstn _ _ _ Hnth) as [Hsplit Hfirst].
  destruct (findElement_fallback env cfg s st _ f _ h Hall Hsplit Hok)
    as [out E].
  rewrite E. simpl.
  destruct (all_fail_events _ _ _ _ Hall) as (evs & -> & Hw & _).
  assert (Hnew : waits_of
            (new_events st
               {| trace := ((trace st ++ evs)
                     ++ [wait_event (f, fallback_timeout) None])
                     ++ [EClock (env_clock env ((trace st ++ evs)
                            ++ [wait_event (f, fallback_timeout) None]))];
                  healingLog := healingLog st
                     ++ [logEntry (toISOString (env_clock env
                           ((trace st ++ evs)
                            ++ [wait_event (f, fallback_timeout) None])))
                           false (description s) (primary s) f];
                  console := out |})
          = (primary s, primary_timeout)
            :: tier fallback_timeout (firstn (S i) (fallbacks s))).
  { erewrite new_events_app
      by (simpl; rewrite <- !app_assoc; reflexivity).
    rewrite waits_of_app, Hw, Hfirst, tier_app. reflexivity. }
  repeat split.
  - now rewrite <- !app_assoc.
  - exact Hnew.
  - intros c o Hin. apply in_waits_of in Hin. rewrite Hnew in Hin.
    destruct Hin as [Heq | Hin].
    + discriminate Heq.
    + apply in_tier in Hin. discriminate Hin.
Qed.

Lemma first_fallback_wins_witness :
  let h := [EAction (AWaitFor "#bad-id" primary_timeout)
              (Some (JsError "Timeout exceeded"))] in
  all_fail page_A (trace initial_state)
    ((primary scenario_A, primary_timeout)
     :: tier fallback_timeout (firstn 0 (fallbacks scenario_A))) h
  /\ nth_error (fallbacks scenario_A) 0 = Some "input[type=text]"
  /\ env_action page_A h (AWaitFor "input[type=text]" fallback_timeout) = None
  /\ fst (findElement page_A default_config scenario_A initial_state)
     = Ok (Some (Loc "input[type=text]")).
Proof.
  assert (H : all_fail page_A (trace initial_state)
                ((primary scenario_A, primary_timeout)
                 :: tier fallback_timeout (firstn 0 (fallbacks scenario_A)))
                [EAction (AWaitFor "#bad-id" primary_timeout)
                   (Some (JsError "Timeout exceeded"))]).
  { eapply all_fail_cons; [reflexivity | apply all_fail_nil]. }
  split; [exact H|]. split; [reflexivity|]. split; [reflexivity|].
  apply (first_fallback_wins page_A default_config scenario_A initial_state
           0 "input[type=text]" _ H); reflexivity.
Defined.

Lemma failed_history_all_fail env cs : forall h,
  (forall h' c, env_action env h' (AWaitFor (fst c) (snd c)) <> None) ->
  all_fail env h cs (failed_history env h cs).
Proof.
  induction cs as [|c cs IH]; intros h Hnone; simpl.
  - constructor.
  - destruct (env_action env h (AWaitFor (fst c) (snd c))) as [e|] eqn:E.
    + econstructor; [exact E|]. now apply IH.
    + now destruct (Hnone h c).
Qed.

Lemma blank_page_all_fail h cs :
  all_fail blank_page h cs (failed_history blank_page h cs).
Proof. apply failed_history_all_fail. intros h' c. discriminate. Qed.

Lemma dead_page_all_fail h cs :
  all_fail dead_page h cs (failed_history dead_page h cs).
Proof. apply failed_history_all_fail. intros h' c. discriminate. Qed.

(** C3 (P3, total failure), as the specification words it, fails on a page
    where the failure screenshot itself rejects: every candidate of
    [login_button] fails on [dead_page], and with [screenshotOnFailure]
    set the resolution ends in the screenshot's rejection instead of the
    failure signal. *)
Lemma total_failure_lost_with_screenshot :
  ~ spec_P3_total_failure dead_page default_config login_button
      initial_state.
Proof.
  intros H.
  destruct (H _ (dead_page_all_fail [] (candidates dead_page login_button)))
    as [Hr _].
  vm_compute in Hr. discriminate Hr.
Qed.

(** C3 (P3, total failure), amended: when every candidate fails and the
    failure screenshot, if one is asked for, does not reject,
    [findElement] returns [null], appends exactly one FAILED entry, and
    takes one full-page screenshot if [screenshotOnFailure] is set and
    none otherwise. *)
Theorem total_failure_reported env cfg s st h :
  all_fail env (trace st) (candidates env s) h ->
  (screenshotOnFailure cfg = true ->
   env_action env (shot_history env h) (failure_shot env h) = None) ->
  let r := findElement env cfg s st in
  let h' :=
    if screenshotOnFailure cfg
    then (shot_history env h ++ [EAction (failure_shot env h) None])%list
    else h in
  fst r = Ok None
  /\ trace (snd r) = (h' ++ [EClock (env_clock env h')])%list
  /\ new_entries st (snd r)
     = [logEntry (toISOString (env_clock env h')) true (description s)
          (primary s) "FAILED"]
  /\ (screenshots (new_events st (snd r)) = 1%nat
      <-> screenshotOnFailure cfg = true)
  /\ (screenshots (new_events st (snd r)) <= 1)%nat.
Proof.
  intros Hall Hshot r h'. subst r h'.
  destruct (findElement_exhausted env cfg s st h Hall) as [out E].
  destruct (all_fail_events _ _ _ _ Hall) as (evs & Hh & _ & Hs0).
  rewrite E. clear E.
  destruct (screenshotOnFailure cfg) eqn:Hs.
  - destruct (all_strategies_failed_screenshot env cfg (primary s)
                (description s) (with_console out (with_trace h st))
                Hs (Hshot eq_refl)) as [out' E'].
    rewrite E'. cbn [fst snd trace healingLog with_console with_trace].
    unfold shot_history, failure_shot.
    assert (Hnew : new_events st
              {| trace := ((h ++ [EClock (env_clock env h)])
                   ++ [EAction (AScreenshot
                         (failure_screenshot_path (env_clock env h)) true)
                         None])
                   ++ [EClock (env_clock env
                         ((h ++ [EClock (env_clock env h)])
                          ++ [EAction (AScreenshot
                                (failure_screenshot_path (env_clock env h))
                                true) None]))];
                 healingLog := healingLog st
                   ++ [logEntry (toISOString (env_clock env
                         ((h ++ [EClock (env_clock env h)])
                          ++ [EAction (AScreenshot
                                (failure_screenshot_path (env_clock env h))
                                true) None])))
                         true (description s) (primary s) "FAILED"];
                 console := out' |}
            = (evs ++ [EClock (env_clock env h);
                       EAction (AScreenshot
                         (failure_screenshot_path (env_clock env h)) true)
                         None;
                       EClock (env_clock env
                         ((h ++ [EClock (env_clock env h)])
                          ++ [EAction (AScreenshot
                                (failure_screenshot_path (env_clock env h))
                                true) None]))])%list).
    { apply new_events_app. simpl. rewrite Hh at 1.
      rewrite <- !app_assoc. reflexivity. }
    rewrite Hnew, screenshots_app, Hs0.
    split; [reflexivity|]. split; [reflexivity|].
    split; [now apply new_entries_app|].
    cbn. split; [split; reflexivity | lia].
  - destruct (all_strategies_failed_no_screenshot env cfg (primary s)
                (description s) (with_console out (with_trace h st)) Hs)
      as [out' E'].
    rewrite E'. cbn [fst snd trace healingLog with_console with_trace].
    assert (Hnew : new_events st
              {| trace := h ++ [EClock (env_clock env h)];
                 healingLog := healingLog st
                   ++ [logEntry (toISOString (env_clock env h)) true
                         (description s) (primary s) "FAILED"];
                 console := out' |}
            = (evs ++ [EClock (env_clock env h)])%list).
    { apply new_events_app. simpl. rewrite Hh at 1.
      rewrite <- !app_assoc. reflexivity. }
    rewrite Hnew, screenshots_app, Hs0.
    split; [reflexivity|]. split; [reflexivity|].
    split; [now apply new_entries_app|].
    cbn. split; [split; discriminate | lia].
Qed.

Lemma total_failure_reported_witness :
  let h :=
    failed_history blank_page [] (candidates blank_page login_button) in
  all_fail blank_page (trace initial_state)
    (candidates blank_page login_button) h
  /\ (screenshotOnFailure default_config = true ->
      env_action blank_page (shot_history blank_page h)
        (failure_shot blank_page h) = None)
  /\ fst (findElement blank_page default_config login_button initial_state)
     = Ok None.
Proof.
  split; [apply blank_page_all_fail|].
  split; [reflexivity|].
  apply (total_failure_reported blank_page default_config login_button
           initial_state _
           (blank_page_all_fail [] (candidates blank_page login_button))).
  reflexivity.
Defined.

(** C6, as the specification words it, fails on the same page: with
    [screenshotOnFailure] set, the rejection of the failure screenshot
    leaves [findElement] as an exception. *)
Lemma screenshot_rejection_escapes :
  ~ spec_never_throws dead_page default_config login_button initial_state.
Proof.
  intros [found H]. vm_compute in H. discriminate H.
Qed.

(** C6, amended: [findElement] throws in exactly one situation: every
    candidate failed, [screenshotOnFailure] is set and the failure
    screenshot rejects; what it throws is that rejection.  In every other
    case it returns a locator or [null]. *)
Theorem findElement_throws_only_from_screenshot env cfg s st e :
  fst (findElement env cfg s st) = Throw e
  <-> exists h,
        all_fail env (trace st) (candidates env s) h
        /\ screenshotOnFailure cfg = true
        /\ env_action env (shot_history env h) (failure_shot env h) = Some e.
Proof.
  split.
  - intros H.
    destruct (findElement_cases env cfg s st)
      as (evs & _ & [(c & rest & Hr & _ & _) | [(Hr & _) | Hthrow]]).
    + rewrite Hr in H. discriminate H.
    + rewrite Hr in H. discriminate H.
    + destruct Hthrow as (h & e' & Hr & _ & _ & Hall & Hs & Hshot).
      rewrite Hr in H. injection H as ->. exists h. auto.
  - intros (h & Hall & Hs & Hshot).
    destruct (findElement_exhausted env cfg s st h Hall) as [out E].
    rewrite E.
    now rewrite (all_strategies_failed_throw env cfg (primary s)
                   (description s) (with_console out (with_trace h st)) e
                   Hs Hshot).
Qed.

(** C4, as the specification words it, fails in scenario A: the primary
    wait is given 5000 ms and the fallback wait 3000 ms. *)
Lemma fallback_wait_is_shorter :
  ~ spec_fallback_waits_longer scenario_A
      (waits_of
         (new_events initial_state
            (snd (findElement page_A default_config scenario_A
                    initial_state)))).
Proof.
  intros H.
  specialize (H 0%nat "#bad-id" 5000 "input[type=text]" 3000
                eq_refl eq_refl).
  simpl in H. specialize (H (Nat.lt_0_succ 0)). discriminate H.
Qed.

(** C4, amended: the waits of a resolution are an initial run of its
    candidate list, in which the primary is given the longest bound
    (5000 ms), every fallback a shorter one (3000 ms) and every heuristic
    candidate the shortest (2000 ms). *)
Theorem wait_bounds_by_tier env cfg s st :
  (exists rest,
      candidates env s
      = (waits_of (new_events st (snd (findElement env cfg s st))) ++ rest)
        %list)
  /\ candidates env s
     = ((primary s, primary_timeout)
        :: tier fallback_timeout (fallbacks s)
        ++ tier heuristic_timeout
             (heuristic_candidates env (elementType s) (description s)))%list
  /\ heuristic_timeout < fallback_timeout < primary_timeout.
Proof.
  split; [|split; [reflexivity | split; reflexivity]].
  destruct (findElement_cases env cfg s st)
    as (evs & Htr & [(c & rest & _ & Hw & _) | [(_ & Hw) | Hthrow]]);
    rewrite (new_events_app _ _ _ Htr).
  - now exists rest.
  - exists []. now rewrite Hw, app_nil_r.
  - destruct Hthrow as (h & e' & _ & Hw & _).
    exists []. now rewrite Hw, app_nil_r.
Qed.

(* ================================================================== *)
(** ** Report export *)

Lemma exportHealingReport_run env cfg st :
  exportHealingReport env cfg st =
  page_call env (report_write env cfg st)
    (with_trace (report_history env st) st).
Proof. reflexivity. Qed.

(** C5, as the specification words it, fails when the file cannot be
    written: on [dead_page] the export ends in the rejection of the
    write, for the engine and for the page object alike. *)
Lemma export_fails_with_the_write :
  ~ spec_export_never_fails dead_page default_config initial_state.
Proof.
  intros [H _]. vm_compute in H. discriminate H.
Qed.

(** C5, amended: [exportHealingReport], and the page object's method that
    forwards to it, throw exactly when the write of the report rejects,
    and what they throw is that rejection; the healing log is the same
    after the call either way. *)
Theorem export_propagates_write_failure env cfg st e :
  (fst (exportHealingReport env cfg st) = Throw e
   <-> env_action env (report_history env st) (report_write env cfg st)
       = Some e)
  /\ (fst (page_exportHealingReport env cfg st) = Throw e
      <-> env_action env (report_history env st) (report_write env cfg st)
          = Some e)
  /\ healingLog (snd (exportHealingReport env cfg st)) = healingLog st.
Proof.
  unfold page_exportHealingReport. rewrite exportHealingReport_run.
  unfold page_call. cbn [trace with_trace].
  destruct (env_action env (report_history env st)
              (report_write env cfg st)) as [e'|]; cbn.
  - repeat split; intros H; congruence.
  - repeat split; intros H; discriminate H.
Qed.

(* ================================================================== *)
(** ** Retry with exponential backoff *)

Lemma snd_page_call env a st :
  snd (page_call env a st)
  = record_event (EAction a (env_action env (trace st) a)) st.
Proof. unfold page_call. now destruct (env_action env (trace st) a). Qed.

Lemma waitForTimeout_completes env d st :
  env_action env (trace st) (AWaitForTimeout d) = None ->
  waitForTimeout env d st = (Ok tt, snd (waitForTimeout env d st)).
Proof. unfold waitForTimeout, page_call. now intros ->. Qed.

Lemma waitForTimeout_ok env d st :
  env_action env (trace st) (AWaitForTimeout d) = None ->
  waitForTimeout env d st
  = (Ok tt, record_event (EAction (AWaitForTimeout d) None) st).
Proof. unfold waitForTimeout, page_call. now intros ->. Qed.

Lemma waitForTimeout_rejected env d e st :
  env_action env (trace st) (AWaitForTimeout d) = Some e ->
  waitForTimeout env d st
  = (Throw e, record_event (EAction (AWaitForTimeout d) (Some e)) st).
Proof. unfold waitForTimeout, page_call. now intros ->. Qed.

Lemma retry_attempts_cons env cfg T (operation : M T) attempt rest last st :
  retry_attempts env cfg operation (attempt :: rest) last st
  = match operation st with
    | (Ok a, st') => (Ok a, st')
    | (Throw e, st') =>
        if attempt =? maxRetries cfg then (Throw e, st')
        else
          match
            waitForTimeout env (retryDelay cfg * 2 ^ (attempt - 1)) st'
          with
          | (Ok _, st'') => retry_attempts env cfg operation rest e st''
          | (Throw e', st'') => (Throw e', st'')
          end
    end.
Proof.
  cbn [retry_attempts]. unfold try_catch.
  destruct (operation st) as [[a|e] st']; [reflexivity|].
  now destruct (attempt =? maxRetries cfg).
Qed.

Lemma always_fails_throughout env T (operation : M T) :
  always_fails operation ->
  forall steps st, fails_throughout env operation steps st.
Proof.
  intros Hfail steps.
  induction steps as [|[|d] rest IH]; intros st; simpl.
  - exact I.
  - destruct (Hfail st) as (e & st' & E). exists e, st'. auto.
  - apply IH.
Qed.

Lemma retry_attempts_schedule env cfg T (operation : M T) :
  forall n a last st,
    maxRetries cfg = Z.of_nat (a + n) ->
    let schedule :=
      Invoke
      :: flat_map
           (fun attempt =>
              [Backoff (retryDelay cfg * 2 ^ (attempt - 1)); Invoke])
           (map Z.of_nat (seq a n)) in
    fails_throughout env operation schedule st ->
    waits_complete env operation schedule st ->
    retry_attempts env cfg operation (map Z.of_nat (seq a (S n))) last st
    = (Throw (fst (run_schedule env operation schedule last st)),
       snd (run_schedule env operation schedule last st))
    /\ exists before,
         operation before
         = (Throw (fst (run_schedule env operation schedule last st)),
            snd (run_schedule env operation schedule last st)).
Proof.
  induction n as [|n IH]; intros a last st Hmax schedule Hfail Hwaits;
    subst schedule.
  - cbn [seq map flat_map] in *. rewrite retry_attempts_cons.
    cbn [run_schedule fails_throughout] in *.
    destruct Hfail as (e & st' & E & _). rewrite E.
    replace (Z.of_nat a =? maxRetries cfg) with true
      by (symmetry; apply Z.eqb_eq; lia).
    split; [reflexivity|]. exists st. exact E.
  - change (seq a (S (S n))) with (a :: seq (S a) (S n)).
    change (seq a (S n)) with (a :: seq (S a) n) in *.
    cbn [map flat_map app] in *. rewrite retry_attempts_cons.
    cbn [run_schedule fails_throughout waits_complete] in *.
    destruct Hfail as (e & st' & E & Hrest). rewrite E in *.
    cbn [snd] in Hwaits. destruct Hwaits as [Hwait Hwaits].
    replace (Z.of_nat a =? maxRetries cfg) with false
      by (symmetry; apply Z.eqb_neq; lia).
    rewrite (waitForTimeout_completes _ _ _ Hwait).
    apply IH; [lia | exact Hrest | exact Hwaits].
Qed.

Lemma attempt_range_succ m :
  1 <= m -> attempt_range m = map Z.of_nat (seq 1 (S (Z.to_nat (m - 1)))).
Proof.
  intros H. unfold attempt_range. do 2 f_equal. lia.
Qed.

Lemma invocations_flat_map (d : Z -> Z) l :
  List.length
    (filter is_invoke (flat_map (fun a => [Backoff (d a); Invoke]) l))
  = List.length l.
Proof. induction l as [|x l IH]; simpl; [reflexivity | now rewrite IH]. Qed.

Lemma backoff_delays_flat_map (d : Z -> Z) l :
  backoff_delays (flat_map (fun a => [Backoff (d a); Invoke]) l) = map d l.
Proof. induction l as [|x l IH]; simpl; [reflexivity | now rewrite IH]. Qed.

Lemma nth_error_attempt_range m i a :
  nth_error (attempt_range m) i = Some a -> a = Z.of_nat i + 1.
Proof.
  unfold attempt_range. rewrite nth_error_map, nth_error_seq.
  destruct (Nat.ltb i (Z.to_nat m)); simpl; [|discriminate].
  intros H. injection H as <-. lia.
Qed.

Lemma backoff_grows d a : 0 <= d -> 1 <= a -> d * 2 ^ (a - 1) <= d * 2 ^ a.
Proof.
  intros Hd Ha. apply Z.mul_le_mono_nonneg_l; [exact Hd|].
  apply Z.pow_le_mono_r; lia.
Qed.

Lemma closing_page_click_fails n :
  always_fails (page_call (page_closed_after n) (AClick "#login" false)).
Proof.
  intros st. unfold page_call.
  destruct (env_action (page_closed_after n) (trace st)
              (AClick "#login" false)) as [e|] eqn:E.
  - eexists. eexists. reflexivity.
  - cbv beta iota delta [env_action page_closed_after] in E.
    destruct (Nat.ltb (List.length (trace st)) n); discriminate E.
Qed.

(** C7 (P5, backoff), as the specification words it, fails when a backoff
    wait is itself rejected: on a page closed after its first call the
    click fails on every attempt and [maxRetries] is 3, yet
    [retryOperation] makes one attempt only and what it throws is the
    rejection of the timer ([closed_page_error]), not the failure of an
    attempt. *)
Lemma backoff_wait_rejection_ends_retrying :
  retryOperation (page_closed_after 1) default_config
    (page_call (page_closed_after 1) (AClick "#login" false)) initial_state
  = (Throw closed_page_error,
     {| trace :=
          [EAction (AClick "#login" false) (Some (JsError "intercepted"));
           EAction (AWaitForTimeout 1000) (Some closed_page_error)];
        healingLog := [];
        console := [] |})
  /\ ~ spec_P5_backoff (page_closed_after 1) default_config
        (page_call (page_closed_after 1) (AClick "#login" false))
        initial_state.
Proof.
  split; [reflexivity|].
  intros H.
  specialize (H (closing_page_click_fails 1)).
  assert (E := H ltac:(discriminate) ltac:(discriminate)).
  vm_compute in E. discriminate E.
Qed.

(** C7 (P5, backoff), amended: with [maxRetries >= 1] and
    [retryDelay >= 0], an operation that fails at every attempt is, as
    long as every backoff wait completes, carried through the schedule of
    the specification: it is invoked exactly [maxRetries] times, the wait
    after attempt [k] is [retryDelay * 2^(k-1)], the waits never decrease,
    and what [retryOperation] throws is the failure of the last
    invocation. *)
Theorem retry_follows_backoff_schedule env cfg T (operation : M T) st :
  1 <= maxRetries cfg ->
  0 <= retryDelay cfg ->
  fails_throughout env operation (spec_retry_schedule cfg) st ->
  waits_complete env operation (spec_retry_schedule cfg) st ->
  let schedule := spec_retry_schedule cfg in
  let outcome := run_schedule env operation schedule JsUndefined st in
  retryOperation env cfg operation st = (Throw (fst outcome), snd outcome)
  /\ (exists before, operation before = (Throw (fst outcome), snd outcome))
  /\ invocations schedule = maxRetries cfg
  /\ List.length (backoff_delays schedule) = Z.to_nat (maxRetries cfg - 1)
  /\ (forall k d,
        nth_error (backoff_delays schedule) k = Some d ->
        d = retryDelay cfg * 2 ^ (Z.of_nat (S k) - 1))
  /\ (forall k d d',
        nth_error (backoff_delays schedule) k = Some d ->
        nth_error (backoff_delays schedule) (S k) = Some d' ->
        d <= d').
Proof.
  intros Hmax Hdelay Hfail Hwaits schedule outcome.
  assert (Hdelays : backoff_delays schedule
                    = map (fun a => retryDelay cfg * 2 ^ (a - 1))
                        (attempt_range (maxRetries cfg - 1))).
  { unfold schedule, spec_retry_schedule. cbn [backoff_delays].
    apply backoff_delays_flat_map. }
  assert (Hnth : forall k d,
             nth_error (backoff_delays schedule) k = Some d ->
             d = retryDelay cfg * 2 ^ (Z.of_nat (S k) - 1)).
  { intros k d. rewrite Hdelays, nth_error_map.
    destruct (nth_error (attempt_range (maxRetries cfg - 1)) k) as [a|] eqn:E;
      cbn [option_map]; [|discriminate].
    intros H. injection H as <-.
    apply nth_error_attempt_range in E. subst a. do 2 f_equal. lia. }
  assert (Hrun := retry_attempts_schedule env cfg T operation
                    (Z.to_nat (maxRetries cfg - 1)) 1 JsUndefined st
                    ltac:(lia) Hfail Hwaits).
  rewrite <- attempt_range_succ in Hrun by exact Hmax.
  destruct Hrun as [Hrun Hlast].
  split; [exact Hrun|]. split; [exact Hlast|].
  split; [|split; [|split]].
  - unfold schedule, spec_retry_schedule, invocations.
    cbn [filter is_invoke List.length].
    rewrite invocations_flat_map. unfold attempt_range.
    rewrite length_map, length_seq. lia.
  - rewrite Hdelays. unfold attempt_range.
    now rewrite !length_map, length_seq.
  - exact Hnth.
  - intros k d d' Hk Hk'. apply Hnth in Hk, Hk'. subst d d'.
    replace (Z.of_nat (S (S k)) - 1) with (Z.of_nat (S k)) by lia.
    apply backoff_grows; lia.
Qed.

Lemma retry_follows_backoff_schedule_witness :
  1 <= maxRetries default_config
  /\ 0 <= retryDelay default_config
  /\ fails_throughout unclickable
       (page_call unclickable (AClick "#login" false))
       (spec_retry_schedule default_config) initial_state
  /\ waits_complete unclickable
       (page_call unclickable (AClick "#login" false))
       (spec_retry_schedule default_config) initial_state
  /\ trace (snd (retryOperation unclickable default_config
                   (page_call unclickable (AClick "#login" false))
                   initial_state))
     = [EAction (AClick "#login" false) (Some (JsError "rejected"));
        EAction (AWaitForTimeout 1000) None;
        EAction (AClick "#login" false) (Some (JsError "rejected"));
        EAction (AWaitForTimeout 2000) None;
        EAction (AClick "#login" false) (Some (JsError "rejected"))].
Proof.
  assert (Hfail : fails_throughout unclickable
                    (page_call unclickable (AClick "#login" false))
                    (spec_retry_schedule default_config) initial_state).
  { apply always_fails_throughout. intros st. eexists. eexists.
    reflexivity. }
  assert (Hwaits : waits_complete unclickable
                     (page_call unclickable (AClick "#login" false))
                     (spec_retry_schedule default_config) initial_state).
  { cbn. split; [reflexivity|]. split; [reflexivity | exact I]. }
  split; [discriminate|]. split; [discriminate|]. split; [exact Hfail|].
  split; [exact Hwaits|].
  destruct (retry_follows_backoff_schedule unclickable default_config unit
              (page_call unclickable (AClick "#login" false)) initial_state)
    as [E _]; [discriminate | discriminate | exact Hfail | exact Hwaits |].
  rewrite E. reflexivity.
Defined.

(* ================================================================== *)
(** ** Relations every run of a computation respects *)

Section Follows.

Variable R : State -> State -> Prop.
Variable quiet : Event -> Prop.

Hypothesis R_refl : forall st, R st st.
Hypothesis R_trans : forall a b c, R a b -> R b c -> R a c.
Hypothesis R_console : forall st out, R st (with_console out st).
Hypothesis R_event : forall st e, quiet e -> R st (record_event e st).

Lemma follows_ret A (a : A) : follows R (ret a).
Proof. intros st. apply R_refl. Qed.

Lemma follows_throw A e : follows R (@throw A e).
Proof. intros st. apply R_refl. Qed.

Lemma follows_bind A B (m : M A) (f : A -> M B) :
  follows R m -> (forall a, follows R (f a)) -> follows R (bind m f).
Proof.
  intros Hm Hf st. unfold bind. specialize (Hm st).
  destruct (m st) as [[a|e] st']; simpl in *; [|exact Hm].
  eapply R_trans; [exact Hm | apply Hf].
Qed.

Lemma follows_try_catch A (m : M A) (h : Error -> M A) :
  follows R m -> (forall e, follows R (h e)) -> follows R (try_catch m h).
Proof.
  intros Hm Hh st. unfold try_catch. specialize (Hm st).
  destruct (m st) as [[a|e] st']; simpl in *; [exact Hm|].
  eapply R_trans; [exact Hm | apply Hh].
Qed.

Lemma follows_console_log msg : follows R (console_log msg).
Proof. intros st. apply (R_console st (console st ++ [msg])). Qed.

Lemma follows_when b (m : M unit) : follows R m -> follows R (when b m).
Proof. intros H. destruct b; [exact H | apply follows_ret]. Qed.

Lemma follows_page_call env a :
  (forall o, quiet (EAction a o)) -> follows R (page_call env a).
Proof.
  intros Hq st. unfold page_call.
  destruct (env_action env (trace st) a) eqn:E; simpl; apply R_event, Hq.
Qed.

Lemma follows_page_text env q :
  (forall o, quiet (EText q o)) -> follows R (page_text env q).
Proof.
  intros Hq st. unfold page_text.
  destruct (env_text env (trace st) q) eqn:E; simpl; apply R_event, Hq.
Qed.

Lemma follows_now env : (forall t, quiet (EClock t)) -> follows R (now env).
Proof. intros Hq st. apply R_event, Hq. Qed.

Lemma follows_waitForTimeout env d :
  (forall o, quiet (EAction (AWaitForTimeout d) o)) ->
  follows R (waitForTimeout env d).
Proof. apply follows_page_call. Qed.

Lemma follows_retry_attempts env cfg A (operation : M A) :
  follows R operation ->
  (forall d o, quiet (EAction (AWaitForTimeout d) o)) ->
  forall attempts last,
    follows R (retry_attempts env cfg operation attempts last).
Proof.
  intros Hop Hq attempts.
  induction attempts as [|attempt rest IH]; intros last; simpl.
  - apply follows_throw.
  - apply follows_try_catch; [exact Hop|]. intros e.
    destruct (attempt =? maxRetries cfg); [apply follows_throw|].
    apply follows_bind; [apply follows_waitForTimeout, Hq|].
    intros _. apply IH.
Qed.

Lemma follows_retryOperation env cfg A (operation : M A) :
  follows R operation ->
  (forall d o, quiet (EAction (AWaitForTimeout d) o)) ->
  follows R (retryOperation env cfg operation).
Proof. intros Hop Hq. now apply follows_retry_attempts. Qed.

Lemma follows_tryStrategies env :
  (forall c t o, quiet (EAction (AWaitFor c t) o)) ->
  forall strategies, follows R (tryStrategies env strategies).
Proof.
  intros Hq strategies.
  induction strategies as [|c rest IH]; simpl.
  - apply follows_ret.
  - apply follows_try_catch; [|intros _; exact IH].
    apply follows_bind; [|intros l; apply follows_ret].
    unfold locate_and_wait.
    apply follows_bind; [|intros _; apply follows_ret].
    apply follows_page_call. intros o. apply Hq.
Qed.

End Follows.

(* ================================================================== *)
(** ** The action layer *)

Lemma accounted_refl s st : accounted s st st.
Proof.
  exists [], []. rewrite !app_nil_r. repeat split. constructor.
Qed.

Lemma accounted_trans s a b c :
  accounted s a b -> accounted s b c -> accounted s a c.
Proof.
  intros (evs1 & en1 & Ht1 & Hl1 & Hn1 & Hf1 & Hs1)
         (evs2 & en2 & Ht2 & Hl2 & Hn2 & Hf2 & Hs2).
  exists (evs1 ++ evs2)%list, (en1 ++ en2)%list.
  rewrite Ht2, Ht1, Hl2, Hl1, <- !app_assoc.
  repeat split.
  - rewrite filter_app, !length_app. lia.
  - apply Forall_app. now split.
  - rewrite screenshots_app. lia.
Qed.

Lemma accounted_console s st out : accounted s st (with_console out st).
Proof.
  exists [], []. simpl. rewrite !app_nil_r. repeat split. constructor.
Qed.

Lemma accounted_event s st e :
  standard_event e -> accounted s st (record_event e st).
Proof.
  intros [He Hs]. exists [e], []. simpl. rewrite app_nil_r.
  unfold screenshots. simpl. rewrite He, Hs. repeat split. constructor.
Qed.

(** An escalation tactic whose last call is [a]: either [a] rejects and
    nothing is logged, or it goes through and one HEALED entry follows. *)
Lemma accounted_escalation env cfg s a tactic :
  (forall o, is_screenshot (EAction a o) = false) ->
  escalation_succeeded (EAction a None) = true ->
  (forall e, escalation_succeeded (EAction a (Some e)) = false) ->
  follows (accounted s)
    (page_call env a;;
     logHealing env cfg (primary s) tactic (description s) false;;
     ret true).
Proof.
  intros Hshot Hok Hko st. run_monad. unfold page_call.
  destruct (env_action env (trace st) a) as [e|] eqn:E.
  - apply accounted_event. split; [apply Hko | apply Hshot].
  - rewrite logHealing_run. cbn [snd].
    eexists [EAction a None; EClock _], [_].
    cbn [trace healingLog record_event]. rewrite <- !app_assoc.
    split; [reflexivity|]. split; [reflexivity|].
    unfold screenshots. cbn [filter]. rewrite Hok, (Hshot None). cbn.
    repeat split. constructor; [|constructor].
    eexists. eexists. reflexivity.
Qed.

Create HintDb accounted.
#[local] Hint Resolve accounted_refl accounted_trans accounted_console
  accounted_event : accounted.

Lemma click_element_accounted env cfg el s :
  follows (accounted s) (click_element env cfg el s).
Proof.
  unfold click_element.
  apply follows_try_catch; eauto with accounted.
  - apply follows_bind; eauto with accounted.
    + apply (follows_retryOperation (accounted s) standard_event);
        eauto with accounted.
      * apply (follows_page_call (accounted s) standard_event);
          eauto with accounted.
        intros o. now destruct o.
      * intros d. split; reflexivity.
    + intros _. apply follows_ret; eauto with accounted.
  - intros _. apply follows_try_catch; eauto with accounted.
    + apply accounted_escalation; try reflexivity.
    + intros _. apply follows_try_catch; eauto with accounted.
      * apply accounted_escalation; try reflexivity.
      * intros _. apply follows_ret; eauto with accounted.
Qed.

Lemma fill_element_accounted env cfg el s v :
  follows (accounted s) (fill_element env cfg el s v).
Proof.
  assert (Hstd : forall a,
             (forall o, standard_event (EAction a o)) ->
             follows (accounted s) (page_call env a)).
  { intros a Ha.
    apply (follows_page_call (accounted s) standard_event);
      eauto with accounted. }
  unfold fill_element.
  apply follows_try_catch; eauto with accounted.
  - apply follows_bind; eauto with accounted.
    + apply (follows_retryOperation (accounted s) standard_event);
        eauto with accounted.
      * apply follows_bind; eauto with accounted.
        -- apply Hstd. intros o. now destruct o.
        -- intros _. apply Hstd. intros o. now destruct o.
      * intros d. split; reflexivity.
    + intros _. apply follows_ret; eauto with accounted.
  - intros _. apply follows_try_catch; eauto with accounted.
    + apply follows_bind; eauto with accounted.
      { apply Hstd. intros o. now destruct o. }
      intros _. apply follows_bind; eauto with accounted.
      { apply Hstd. intros o. now destruct o. }
      intros _. apply accounted_escalation; try reflexivity.
    + intros _. apply follows_try_catch; eauto with accounted.
      * apply accounted_escalation; try reflexivity.
      * intros _. apply follows_ret; eauto with accounted.
Qed.

Lemma getText_element_queries env el :
  follows only_text_queries (getText_element env el).
Proof.
  assert (Hrefl : forall st, only_text_queries st st).
  { intros st. exists []. now rewrite app_nil_r. }
  assert (Htrans : forall a b c, only_text_queries a b ->
             only_text_queries b c -> only_text_queries a c).
  { intros a b c (e1 & H1 & F1) (e2 & H2 & F2).
    exists (e1 ++ e2)%list. rewrite H2, H1, <- app_assoc.
    split; [reflexivity | apply Forall_app; now split]. }
  assert (Hq : forall q, follows only_text_queries (page_text env q)).
  { intros q.
    apply (follows_page_text only_text_queries
             (fun e => exists q o, e = EText q o)).
    - intros st e He. exists [e]. split; [reflexivity|].
      constructor; [exact He | constructor].
    - intros o. eauto. }
  unfold getText_element.
  apply (follows_try_catch _ Htrans); [apply Hq | intros _].
  apply (follows_try_catch _ Htrans); [apply Hq | intros _].
  apply (follows_try_catch _ Htrans); [apply Hq | intros _].
  apply (follows_ret _ Hrefl).
Qed.

Lemma text_queries_no_screenshot evs :
  Forall (fun e => exists q o, e = EText q o) evs -> screenshots evs = 0%nat.
Proof.
  induction 1 as [|e evs (q & o & ->) _ IH]; [reflexivity|].
  exact IH.
Qed.

(** C8, as the specification words it, fails twice over.  On [unclickable]
    the forced click of [click] is rejected and only the script click that
    follows is logged: two escalation steps, one entry.  On
    [inner_text_only] the text comes from the alternate extraction of
    [getText] and nothing is logged. *)
Lemma escalations_not_all_logged :
  ~ spec_escalations_logged click_escalation initial_state
      (snd (click_element unclickable default_config (Loc "#login")
              login_button initial_state))
  /\ ~ spec_escalations_logged text_escalation initial_state
         (snd (getText_element inner_text_only (Loc ".title")
                 initial_state)).
Proof.
  split; intros H; vm_compute in H; discriminate H.
Qed.

(** C8, amended: on a resolved element, [click] and [fill] append exactly
    one HEALED entry for each escalation tactic that goes through (forced
    click, script click, keyboard fill, script fill) and none otherwise;
    neither they nor [getText] take a screenshot, and a resolution that
    finds an element takes none either. *)
Theorem successful_tactics_are_logged env cfg el s v st :
  accounted s st (snd (click_element env cfg el s st))
  /\ accounted s st (snd (fill_element env cfg el s v st))
  /\ (exists evs,
        trace (snd (getText_element env el st)) = (trace st ++ evs)%list
        /\ screenshots evs = 0%nat)
  /\ (forall found,
        fst (findElement env cfg s st) = Ok (Some found) ->
        screenshots (new_events st (snd (findElement env cfg s st))) = 0%nat).
Proof.
  split; [apply click_element_accounted|].
  split; [apply fill_element_accounted|].
  split.
  - destruct (getText_element_queries env el st) as (evs & Htr & Hq).
    exists evs. split; [exact Htr|]. now apply text_queries_no_screenshot.
  - intros found Hfound.
    destruct (findElement_cases env cfg s st)
      as (evs & Htr & [(c & rest & _ & _ & Hs) | [(Hr & _) | Hthrow]]).
    + now rewrite (new_events_app _ _ _ Htr).
    + rewrite Hr in Hfound. discriminate Hfound.
    + destruct Hthrow as (h & e & Hr & _). rewrite Hr in Hfound.
      discriminate Hfound.
Qed.

(* ================================================================== *)
(** ** Console logging is not observable in results or in the log *)

Lemma same_world_refl st : same_world st st.
Proof. split; reflexivity. Qed.

Lemma sim_ret A (a : A) : sim (ret a) (ret a).
Proof. intros st1 st2 H. split; [reflexivity | exact H]. Qed.

Lemma sim_throw A e : sim (@throw A e) (@throw A e).
Proof. intros st1 st2 H. split; [reflexivity | exact H]. Qed.

Lemma sim_bind A B (m1 m2 : M A) (f1 f2 : A -> M B) :
  sim m1 m2 -> (forall a, sim (f1 a) (f2 a)) ->
  sim (bind m1 f1) (bind m2 f2).
Proof.
  intros Hm Hf st1 st2 H. unfold bind.
  destruct (Hm st1 st2 H) as [Hr Hs].
  destruct (m1 st1) as [[a1|e1] s1], (m2 st2) as [[a2|e2] s2];
    simpl in *; try discriminate Hr.
  - injection Hr as ->. now apply Hf.
  - injection Hr as ->. split; [reflexivity | assumption].
Qed.

Lemma sim_try_catch A (m1 m2 : M A) (h1 h2 : Error -> M A) :
  sim m1 m2 -> (forall e, sim (h1 e) (h2 e)) ->
  sim (try_catch m1 h1) (try_catch m2 h2).
Proof.
  intros Hm Hh st1 st2 H. unfold try_catch.
  destruct (Hm st1 st2 H) as [Hr Hs].
  destruct (m1 st1) as [[a1|e1] s1], (m2 st2) as [[a2|e2] s2];
    simpl in *; try discriminate Hr.
  - split; assumption.
  - injection Hr as ->. now apply Hh.
Qed.

(** Whatever is or is not written to the console on either side. *)
Lemma sim_console b1 b2 msg1 msg2 :
  sim (when b1 (console_log msg1)) (when b2 (console_log msg2)).
Proof.
  intros st1 st2 H. destruct b1, b2; split; try reflexivity; exact H.
Qed.

Lemma sim_page_call env a : sim (page_call env a) (page_call env a).
Proof.
  intros st1 st2 [Ht Hl]. unfold page_call. rewrite Ht.
  destruct (env_action env (trace st2) a); simpl;
    (split; [reflexivity | split; simpl; congruence]).
Qed.

Lemma sim_page_text env q : sim (page_text env q) (page_text env q).
Proof.
  intros st1 st2 [Ht Hl]. unfold page_text. rewrite Ht.
  destruct (env_text env (trace st2) q); simpl;
    (split; [reflexivity | split; simpl; congruence]).
Qed.

Lemma sim_waitForTimeout env d :
  sim (waitForTimeout env d) (waitForTimeout env d).
Proof. apply sim_page_call. Qed.

Lemma sim_logHealing env cfg1 cfg2 o h d f :
  sim (logHealing env cfg1 o h d f) (logHealing env cfg2 o h d f).
Proof.
  intros st1 st2 [Ht Hl]. rewrite !logHealing_run. simpl.
  split; [reflexivity | split; simpl; congruence].
Qed.

Create HintDb sim.
#[local] Hint Resolve sim_ret sim_throw sim_bind sim_try_catch sim_console
  sim_page_call sim_page_text sim_waitForTimeout sim_logHealing : sim.

Lemma sim_locate_and_wait env c t :
  sim (locate_and_wait env c t) (locate_and_wait env c t).
Proof. unfold locate_and_wait. auto with sim. Qed.

#[local] Hint Resolve sim_locate_and_wait : sim.

Lemma sim_tryStrategies env strategies :
  sim (tryStrategies env strategies) (tryStrategies env strategies).
Proof. induction strategies; simpl; auto 6 with sim. Qed.

Lemma sim_try_fallbacks env cfg1 cfg2 p d fbs : forall i,
  sim (try_fallbacks env cfg1 p d i fbs) (try_fallbacks env cfg2 p d i fbs).
Proof. induction fbs; intros i; simpl; auto 8 with sim. Qed.

Lemma sim_try_primary env cfg1 cfg2 p d :
  sim (try_primary env cfg1 p d) (try_primary env cfg2 p d).
Proof. unfold try_primary. auto 8 with sim. Qed.

Lemma sim_now env : sim (now env) (now env).
Proof.
  intros st1 st2 [Ht Hl]. unfold now. rewrite Ht. simpl.
  split; [reflexivity | split; simpl; congruence].
Qed.

#[local] Hint Resolve sim_tryStrategies sim_try_fallbacks sim_try_primary
  sim_now : sim.

Lemma sim_all_strategies_failed env cfg1 cfg2 p d :
  same_but_logging cfg1 cfg2 ->
  sim (all_strategies_failed env cfg1 p d)
      (all_strategies_failed env cfg2 p d).
Proof.
  intros (_ & _ & Hs). unfold all_strategies_failed. rewrite Hs.
  apply sim_bind; [|auto 6 with sim].
  destruct (screenshotOnFailure cfg2); simpl; auto 6 with sim.
Qed.

Lemma sim_findElement env cfg1 cfg2 s :
  same_but_logging cfg1 cfg2 ->
  sim (findElement env cfg1 s) (findElement env cfg2 s).
Proof.
  intros Hc. unfold findElement, intelligentFallback.
  apply sim_bind; [auto with sim|]. intros [l|]; [auto with sim|].
  apply sim_bind; [auto with sim|]. intros [l|]; [auto with sim|].
  apply sim_bind; [auto with sim|]. intros [l|]; [auto 6 with sim|].
  now apply sim_all_strategies_failed.
Qed.

Lemma sim_retry_attempts env cfg1 cfg2 A (op : M A) :
  same_but_logging cfg1 cfg2 -> sim op op ->
  forall attempts last,
    sim (retry_attempts env cfg1 op attempts last)
        (retry_attempts env cfg2 op attempts last).
Proof.
  intros (Hm & Hd & _) Hop attempts.
  induction attempts as [|a rest IH]; intros last; simpl; [auto with sim|].
  apply sim_try_catch; [exact Hop|]. intros e. rewrite Hm, Hd.
  destruct (a =? maxRetries cfg2); auto with sim.
Qed.

Lemma sim_retryOperation env cfg1 cfg2 A (op : M A) :
  same_but_logging cfg1 cfg2 -> sim op op ->
  sim (retryOperation env cfg1 op) (retryOperation env cfg2 op).
Proof.
  intros Hc Hop. unfold retryOperation.
  destruct Hc as (Hm & Hd & Hs). rewrite Hm.
  apply sim_retry_attempts; [repeat split; assumption | exact Hop].
Qed.

Lemma sim_click_element env cfg1 cfg2 el s :
  same_but_logging cfg1 cfg2 ->
  sim (click_element env cfg1 el s) (click_element env cfg2 el s).
Proof.
  intros Hc. unfold click_element.
  apply sim_try_catch; [|auto 10 with sim].
  apply sim_bind; [|auto with sim].
  apply sim_retryOperation; auto with sim.
Qed.

Lemma sim_fill_element env cfg1 cfg2 el s v :
  same_but_logging cfg1 cfg2 ->
  sim (fill_element env cfg1 el s v) (fill_element env cfg2 el s v).
Proof.
  intros Hc. unfold fill_element.
  apply sim_try_catch; [|auto 12 with sim].
  apply sim_bind; [|auto with sim].
  apply sim_retryOperation; auto with sim.
Qed.

(** C10: two runs of [findElement], [click] or [fill] under configurations
    that differ only in [enableLogging] return the same result and leave
    the same healing log (and the same history of page calls); only the
    console output can differ. *)
Theorem logging_flag_is_unobservable env cfg1 cfg2 s v st :
  same_but_logging cfg1 cfg2 ->
  (fst (findElement env cfg1 s st) = fst (findElement env cfg2 s st)
   /\ same_world (snd (findElement env cfg1 s st))
        (snd (findElement env cfg2 s st)))
  /\ (fst (click env cfg1 s st) = fst (click env cfg2 s st)
      /\ same_world (snd (click env cfg1 s st)) (snd (click env cfg2 s st)))
  /\ (fst (fill env cfg1 s v st) = fst (fill env cfg2 s v st)
      /\ same_world (snd (fill env cfg1 s v st))
           (snd (fill env cfg2 s v st))).
Proof.
  intros Hc.
  split; [apply (sim_findElement env cfg1 cfg2 s Hc), same_world_refl|].
  split.
  - assert (H : sim (click env cfg1 s) (click env cfg2 s)).
    { unfold click. apply sim_bind; [now apply sim_findElement|].
      intros [el|]; [now apply sim_click_element | auto with sim]. }
    apply H, same_world_refl.
  - assert (H : sim (fill env cfg1 s v) (fill env cfg2 s v)).
    { unfold fill. apply sim_bind; [now apply sim_findElement|].
      intros [el|]; [now apply sim_fill_element | auto with sim]. }
    apply H, same_world_refl.
Qed.

Lemma logging_flag_is_unobservable_witness :
  same_but_logging default_config silent_config
  /\ healingLog (snd (fill page_A default_config scenario_A "standard_user"
                        initial_state))
     = healingLog (snd (fill page_A silent_config scenario_A "standard_user"
                          initial_state)).
Proof.
  assert (Hc : same_but_logging default_config silent_config)
    by (repeat split).
  split; [exact Hc|].
  apply (logging_flag_is_unobservable page_A default_config silent_config
           scenario_A "standard_user" initial_state Hc).
Defined.

(* ================================================================== *)
(** ** Timestamps, entries and the report *)

Lemma matches_app p1 p2 s1 s2 :
  matches p1 s1 = true -> matches p2 s2 = true ->
  matches (p1 ++ p2) (s1 ++ s2) = true.
Proof.
  revert s1. induction p1 as [|c p1 IH]; intros [|a s1] H1 H2;
    simpl in *; try discriminate H1.
  - exact H2.
  - apply andb_true_iff in H1. destruct H1 as [Ha H1].
    rewrite Ha. simpl. now apply IH.
Qed.

Lemma matches_length p : forall s,
  matches p s = true -> String.length s = List.length p.
Proof.
  induction p as [|c p IH]; intros [|a s] H; simpl in *;
    try discriminate H; [reflexivity|].
  apply andb_true_iff in H. destruct H as [_ H]. f_equal. now apply IH.
Qed.

Lemma is_digit_digit_char k : is_digit (digit_char (k mod 10)) = true.
Proof.
  assert (H : 0 <= k mod 10 < 10) by (apply Z.mod_pos_bound; lia).
  assert (E : k mod 10 = 0 \/ k mod 10 = 1 \/ k mod 10 = 2 \/ k mod 10 = 3
              \/ k mod 10 = 4 \/ k mod 10 = 5 \/ k mod 10 = 6
              \/ k mod 10 = 7 \/ k mod 10 = 8 \/ k mod 10 = 9) by lia.
  repeat (destruct E as [E|E]; [rewrite E; reflexivity|]).
  rewrite E. reflexivity.
Qed.

Lemma repeat_snoc {A} (x : A) n : repeat x (S n) = (repeat x n ++ [x])%list.
Proof.
  induction n as [|n IH]; [reflexivity|].
  change (repeat x (S (S n))) with (x :: repeat x (S n)).
  rewrite IH at 1. reflexivity.
Qed.

Lemma matches_digits n : forall k, matches (repeat Digit n) (digits n k) = true.
Proof.
  induction n as [|n IH]; intros k; [reflexivity|].
  rewrite repeat_snoc. cbn [digits].
  apply matches_app; [apply IH|].
  cbn [matches in_class]. now rewrite is_digit_digit_char.
Qed.

Lemma matches_lit c : matches [Lit c] (String c EmptyString) = true.
Proof. cbn [matches in_class]. now rewrite Ascii.eqb_refl. Qed.

(** Whatever the clock reads, [toISOString] writes an ISO 8601 timestamp. *)
Lemma toISOString_iso t : is_iso8601 (toISOString t) = true.
Proof.
  unfold toISOString.
  destruct (civil_from_days (t / ms_per_day)) as [[y m] d].
  set (r := t mod ms_per_day).
  assert (Htail :
    matches ([Lit "-"] ++ repeat Digit 2 ++ [Lit "-"]
             ++ repeat Digit 2 ++ [Lit "T"] ++ repeat Digit 2 ++ [Lit ":"]
             ++ repeat Digit 2 ++ [Lit ":"] ++ repeat Digit 2 ++ [Lit "."]
             ++ repeat Digit 3 ++ [Lit "Z"])
      ("-" ++ digits 2 m ++ "-" ++ digits 2 d ++ "T"
       ++ digits 2 (r / 3600000) ++ ":" ++ digits 2 (r / 60000 mod 60) ++ ":"
       ++ digits 2 (r / 1000 mod 60) ++ "." ++ digits 3 (r mod 1000) ++ "Z")
    = true).
  { repeat (first [ apply (matches_app [Lit _] _ (String _ EmptyString));
                    [apply matches_lit|]
                  | apply matches_app; [apply matches_digits|] ]).
    reflexivity. }
  unfold is_iso8601, year_field.
  destruct ((0 <=? y) && (y <=? 9999))%bool.
  - apply orb_true_iff. left.
    apply (matches_app (repeat Digit 4)); [apply matches_digits | exact Htail].
  - apply orb_true_iff. right.
    change (Sign :: Digit :: Digit :: iso_pattern)
      with (([Sign] ++ repeat Digit 6)
            ++ ([Lit "-"] ++ repeat Digit 2 ++ [Lit "-"]
                ++ repeat Digit 2 ++ [Lit "T"] ++ repeat Digit 2 ++ [Lit ":"]
                ++ repeat Digit 2 ++ [Lit ":"] ++ repeat Digit 2 ++ [Lit "."]
                ++ repeat Digit 3 ++ [Lit "Z"]))%list.
    apply matches_app; [|exact Htail].
    apply matches_app; [|apply matches_digits].
    now destruct (y <? 0).
Qed.

Lemma logEntry_written t f d o h :
  entry_format written_statuses (logEntry (toISOString t) f d o h).
Proof.
  exists (toISOString t), (status_string f), d, o, h.
  split; [apply toISOString_iso|]. split; [|reflexivity].
  destruct f; simpl; auto.
Qed.

Section LogGrows.

Variable P : string -> Prop.

Lemma log_grows_refl st : log_grows P st st.
Proof. exists []. now rewrite app_nil_r. Qed.

Lemma log_grows_trans a b c :
  log_grows P a b -> log_grows P b c -> log_grows P a c.
Proof.
  intros (e1 & H1 & F1) (e2 & H2 & F2). exists (e1 ++ e2)%list.
  rewrite H2, H1, <- app_assoc. split; [reflexivity|].
  apply Forall_app. now split.
Qed.

Lemma log_grows_console st out : log_grows P st (with_console out st).
Proof. exists []. simpl. now rewrite app_nil_r. Qed.

Lemma log_grows_event st e : any_event e -> log_grows P st (record_event e st).
Proof. intros _. exists []. simpl. now rewrite app_nil_r. Qed.

Hypothesis P_logEntry : forall t f d o h, P (logEntry (toISOString t) f d o h).

Lemma logHealing_grows env cfg o h d f :
  follows (log_grows P) (logHealing env cfg o h d f).
Proof.
  intros st. rewrite logHealing_run. eexists. simpl.
  split; [reflexivity|]. constructor; [apply P_logEntry | constructor].
Qed.

Ltac grows :=
  repeat first
    [ apply (follows_ret _ log_grows_refl)
    | apply (follows_throw _ log_grows_refl)
    | apply (follows_console_log _ log_grows_console)
    | apply (follows_when _ log_grows_refl)
    | apply (follows_page_call _ any_event log_grows_event);
        intros; exact I
    | apply (follows_page_text _ any_event log_grows_event);
        intros; exact I
    | apply (follows_now _ any_event log_grows_event); intros; exact I
    | apply (follows_tryStrategies _ any_event log_grows_refl
               log_grows_trans log_grows_event);
        intros; exact I
    | apply (follows_retryOperation _ any_event log_grows_refl
               log_grows_trans log_grows_event);
        [|intros; exact I]
    | apply logHealing_grows
    | apply (follows_bind _ log_grows_trans)
    | apply (follows_try_catch _ log_grows_trans)
    | match goal with
      | |- follows _ (match ?x with _ => _ end) => destruct x
      end
    | progress intros ].

Lemma try_fallbacks_grows env cfg p d fbs : forall i,
  follows (log_grows P) (try_fallbacks env cfg p d i fbs).
Proof.
  induction fbs as [|f fbs IH]; intros i; simpl; grows.
  unfold locate_and_wait. grows. apply IH.
Qed.

Lemma findElement_grows env cfg s :
  follows (log_grows P) (findElement env cfg s).
Proof.
  unfold findElement, try_primary, intelligentFallback,
    all_strategies_failed, locate_and_wait.
  grows. apply try_fallbacks_grows.
Qed.

Lemma click_grows env cfg s : follows (log_grows P) (click env cfg s).
Proof. unfold click, click_element. grows. apply try_fallbacks_grows. Qed.

Lemma fill_grows env cfg s v : follows (log_grows P) (fill env cfg s v).
Proof. unfold fill, fill_element. grows. apply try_fallbacks_grows. Qed.

Lemma getText_grows env cfg s : follows (log_grows P) (getText env cfg s).
Proof. unfold getText, getText_element. grows. apply try_fallbacks_grows. Qed.

Lemma exportHealingReport_grows env cfg :
  follows (log_grows P) (exportHealingReport env cfg).
Proof.
  unfold exportHealingReport. grows.
  intros st. apply log_grows_refl.
Qed.

(** Every entry of the log of a reachable state satisfies [P]. *)
Lemma run_calls_entries env cfg calls :
  Forall P (healingLog (run_calls env cfg calls)).
Proof.
  unfold run_calls.
  assert (H : Forall P (healingLog initial_state)) by constructor.
  revert H. generalize initial_state.
  induction calls as [|c calls IH]; intros st Hst; simpl; [exact Hst|].
  apply IH.
  assert (Hg : forall st', log_grows P st st' -> Forall P (healingLog st')).
  { intros st' (entries & -> & Hf). apply Forall_app. now split. }
  destruct c; simpl.
  - apply Hg, findElement_grows.
  - apply Hg, click_grows.
  - apply Hg, fill_grows.
  - apply Hg, getText_grows.
  - exact Hst.
  - apply Hg, exportHealingReport_grows.
  - constructor.
Qed.

End LogGrows.

Lemma string_firstn_app s r : string_firstn (String.length s) (s ++ r) = s.
Proof.
  induction s as [|a s IH]; simpl; [now destruct r | now rewrite IH].
Qed.

Lemma string_skipn_app s r : string_skipn (String.length s) (s ++ r) = r.
Proof. induction s as [|a s IH]; simpl; [reflexivity | exact IH]. Qed.

(** A timestamp in front of a text is its first 24 or 27 characters. *)
Lemma iso_prefix ts rest entry :
  is_iso8601 ts = true -> entry = ts ++ rest ->
  (ts = string_firstn 24 entry /\ rest = string_skipn 24 entry)
  \/ (ts = string_firstn 27 entry /\ rest = string_skipn 27 entry).
Proof.
  intros Hiso ->. unfold is_iso8601 in Hiso.
  apply orb_true_iff in Hiso.
  destruct Hiso as [H|H]; apply matches_length in H; [left | right].
  - change 24%nat with (List.length iso_pattern).
    rewrite <- H. now rewrite string_firstn_app, string_skipn_app.
  - change 27%nat with (List.length (Sign :: Digit :: Digit :: iso_pattern)).
    rewrite <- H. now rewrite string_firstn_app, string_skipn_app.
Qed.

(** C9, as the specification words it, fails on the entry format: the
    entry [findElement] logs in scenario A carries the status
    [🔧 HEALED], not [HEALED], so the report exported next does not have
    the stated shape. *)
Lemma report_entries_carry_decorated_status :
  ~ spec_report_format page_A default_config
      (run_calls page_A default_config [CallFindElement scenario_A]).
Proof.
  intros (ts & _ & _ & Hall).
  apply Forall_inv in Hall.
  destruct Hall as (t & status & d & o & r & Hiso & Hin & Heq).
  vm_compute in Heq.
  destruct (iso_prefix _ _ _ Hiso Heq) as [[Ht Hrest] | [Ht Hrest]].
  - vm_compute in Hrest.
    destruct Hin as [<- | [<- | []]]; discriminate Hrest.
  - rewrite Ht in Hiso. vm_compute in Hiso. discriminate Hiso.
Qed.

(** C9, amended: in every state an engine reaches, the document
    [exportHealingReport] writes is an object with exactly the fields
    [timestamp] (an ISO 8601 string), [totalHealingAttempts] (the number
    of log entries), [healingLog] (the log entries, each
    ["<ISO timestamp> - <status> - <description>: <original> → <resolved>"]
    with status [🔧 HEALED] or [❌ FAILED]) and [config] (the four fields
    of the configuration). *)
Theorem report_document_shape env cfg calls :
  let st := run_calls env cfg calls in
  let st' := snd (exportHealingReport env cfg st) in
  (exists t t' path outcome,
      new_events st st'
      = [EClock t; EClock t';
         EAction (AWriteFile path (exported_document env cfg st)) outcome])
  /\ report_shape written_statuses cfg (healingLog st)
       (exported_document env cfg st).
Proof.
  intros st st'. split.
  - subst st'. rewrite exportHealingReport_run.
    unfold page_call. cbn [trace with_trace].
    exists (env_clock env (trace st)),
           (env_clock env (shot_history env (trace st))),
           (report_path (env_clock env (shot_history env (trace st)))).
    destruct (env_action env (report_history env st)
                (report_write env cfg st)) as [e|] eqn:E;
      [exists (Some e) | exists None];
      apply new_events_app; cbn [snd trace record_event with_trace];
      unfold report_history, shot_history; rewrite <- !app_assoc;
      reflexivity.
  - exists (toISOString (env_clock env (trace st))).
    split; [reflexivity|]. split; [apply toISOString_iso|].
    apply run_calls_entries. apply logEntry_written.
Qed.

(* ================================================================== *)
(** ** First success, over the whole candidate list *)

Lemma first_success_not_all_fail env h cs c h1 h' :
  first_success env h cs c h1 -> all_fail env h cs h' -> False.
Proof.
  intros (cs1 & cs2 & -> & Hfail & Hok) Hall.
  apply all_fail_app in Hall. destruct Hall as (h2 & H1 & H2).
  rewrite (all_fail_deterministic _ _ _ _ _ H1 Hfail) in H2.
  apply all_fail_cons_inv in H2. destruct H2 as (e & He & _).
  congruence.
Qed.

Lemma first_success_unique env cs : forall h c1 h1 c2 h2,
  first_success env h cs c1 h1 -> first_success env h cs c2 h2 ->
  c1 = c2 /\ h1 = h2.
Proof.
  induction cs as [|x cs IH]; intros h c1 h1 c2 h2
    (a1 & b1 & E1 & F1 & O1) (a2 & b2 & E2 & F2 & O2).
  - now destruct a1.
  - destruct a1 as [|y1 a1], a2 as [|y2 a2]; simpl in E1, E2;
      injection E1 as <- E1; injection E2 as <- E2.
    + apply all_fail_nil_inv in F1, F2. now subst.
    + apply all_fail_nil_inv in F1. subst h1.
      apply all_fail_cons_inv in F2. destruct F2 as (e & He & _).
      congruence.
    + apply all_fail_nil_inv in F2. subst h2.
      apply all_fail_cons_inv in F1. destruct F1 as (e & He & _).
      congruence.
    + apply all_fail_cons_inv in F1, F2.
      destruct F1 as (e1 & He1 & F1), F2 as (e2 & He2 & F2).
      assert (e1 = e2) by congruence. subst e2.
      apply (IH (h ++ [wait_event x (Some e1)])%list);
        [exists a1, b1 | exists a2, b2]; auto.
Qed.

(** How a resolution ends, with the log it leaves. *)
Lemma findElement_outcome env cfg s st :
  let r := findElement env cfg s st in
  (exists c h1,
      first_success env (trace st) (candidates env s) c h1
      /\ fst r = Ok (Some (Loc (fst c)))
      /\ ((c = (primary s, primary_timeout)
           /\ healingLog (snd r) = healingLog st)
          \/ (exists t healed,
                 healingLog (snd r)
                 = (healingLog st
                    ++ [logEntry (toISOString t) false (description s)
                          (primary s) healed])%list
                 /\ ((snd c = fallback_timeout /\ healed = fst c)
                     \/ (snd c = heuristic_timeout
                         /\ healed = "intelligent-fallback")))))
  \/ (exists h,
         all_fail env (trace st) (candidates env s) h
         /\ ((fst r = Ok None
              /\ exists t,
                   healingLog (snd r)
                   = (healingLog st
                      ++ [logEntry (toISOString t) true (description s)
                            (primary s) "FAILED"])%list)
             \/ (exists e,
                    fst r = Throw e
                    /\ healingLog (snd r) = healingLog st))).
Proof.
  intros r. subst r.
  destruct (env_action env (trace st) (AWaitFor (primary s) primary_timeout))
    as [e|] eqn:Hp.
  2:{ destruct (findElement_primary env cfg s st Hp) as [out E].
      rewrite E. left. exists (primary s, primary_timeout), (trace st).
      split.
      - exists [], (tier fallback_timeout (fallbacks s)
                    ++ tier heuristic_timeout
                         (heuristic_candidates env (elementType s)
                            (description s)))%list.
        repeat split; [constructor | exact Hp].
      - split; [reflexivity|]. left. split; reflexivity. }
  set (h0 := (trace st ++ [wait_event (primary s, primary_timeout) (Some e)])
               %list).
  destruct (tier_cases env fallback_timeout (fallbacks s) h0)
    as [(hf & Hf) | (l1 & f & l2 & hf & Hl & Hf & Hok)].
  2:{ assert (Hall : all_fail env (trace st)
                ((primary s, primary_timeout) :: tier fallback_timeout l1) hf)
        by (econstructor; [exact Hp | exact Hf]).
      destruct (findElement_fallback env cfg s st l1 f l2 hf Hall Hl Hok)
        as [out E].
      rewrite E. left. exists (f, fallback_timeout), hf. split.
      - exists ((primary s, primary_timeout) :: tier fallback_timeout l1),
          (tier fallback_timeout l2
           ++ tier heuristic_timeout
                (heuristic_candidates env (elementType s) (description s)))%list.
        split; [|split; [exact Hall | exact Hok]].
        rewrite candidates_tiers, Hl, tier_app. simpl.
        now rewrite <- app_assoc.
      - split; [reflexivity|]. right. eexists. exists f.
        split; [reflexivity|]. left. split; reflexivity. }
  destruct (tier_cases env heuristic_timeout
              (heuristic_candidates env (elementType s) (description s)) hf)
    as [(hh & Hh) | (l1 & c & l2 & hh & Hl & Hh & Hok)].
  2:{ assert (Hall : all_fail env (trace st)
                ((primary s, primary_timeout)
                 :: tier fallback_timeout (fallbacks s)
                 ++ tier heuristic_timeout l1) hh).
      { econstructor; [exact Hp|]. apply all_fail_app. eauto. }
      destruct (findElement_heuristic env cfg s st l1 c l2 hh Hall Hl Hok)
        as [out E].
      rewrite E. left. exists (c, heuristic_timeout), hh. split.
      - exists ((primary s, primary_timeout)
                :: tier fallback_timeout (fallbacks s)
                ++ tier heuristic_timeout l1)%list,
          (tier heuristic_timeout l2).
        split; [|split; [exact Hall | exact Hok]].
        rewrite candidates_tiers, Hl, tier_app. simpl.
        now rewrite <- app_assoc.
      - split; [reflexivity|]. right. eexists. exists "intelligent-fallback".
        split; [reflexivity|]. right. split; reflexivity. }
  assert (Hall : all_fail env (trace st) (candidates env s) hh).
  { rewrite candidates_tiers. econstructor; [exact Hp|].
    apply all_fail_app. eauto. }
  right. exists hh. split; [exact Hall|].
  destruct (findElement_exhausted env cfg s st hh Hall) as [out E].
  rewrite E.
  destruct (screenshotOnFailure cfg) eqn:Hs.
  - destruct (env_action env (shot_history env hh) (failure_shot env hh))
      as [e'|] eqn:Hshot.
    + rewrite (all_strategies_failed_throw env cfg (primary s) (description s)
                 (with_console out (with_trace hh st)) e' Hs Hshot).
      right. exists e'. split; reflexivity.
    + destruct (all_strategies_failed_screenshot env cfg (primary s)
                  (description s) (with_console out (with_trace hh st))
                  Hs Hshot) as [out' E'].
      rewrite E'. left. split; [reflexivity|]. eexists. reflexivity.
  - destruct (all_strategies_failed_no_screenshot env cfg (primary s)
                (description s) (with_console out (with_trace hh st)) Hs)
      as [out' E'].
    rewrite E'. left. split; [reflexivity|]. eexists. reflexivity.
Qed.

(** X1 (first success, all tiers): [findElement] returns a locator exactly
    when some candidate of the list (primary, fallbacks, heuristics) shows
    up after every candidate before it failed, and the locator it returns
    is the one of that first candidate. *)
Theorem findElement_returns_first_success env cfg s st l :
  fst (findElement env cfg s st) = Ok (Some l)
  <-> exists c h1,
        first_success env (trace st) (candidates env s) c h1
        /\ l = Loc (fst c).
Proof.
  split.
  - intros H.
    destruct (findElement_outcome env cfg s st)
      as [(c & h1 & Hfs & Hr & _) | (h & _ & [(Hr & _) | (e & Hr & _)])];
      rewrite Hr in H; try discriminate H.
    injection H as <-. eauto.
  - intros (c & h1 & Hfs & ->).
    destruct (findElement_outcome env cfg s st)
      as [(c' & h1' & Hfs' & Hr & _) | (h & Hall & _)].
    + destruct (first_success_unique _ _ _ _ _ _ _ Hfs Hfs') as [-> _].
      exact Hr.
    + destruct (first_success_not_all_fail _ _ _ _ _ _ Hfs Hall).
Qed.

(** The rank and the candidate found are determined by the page. *)
Lemma found_at_unique env cs : forall h i c j c',
  found_at env h cs i c -> found_at env h cs j c' -> i = j /\ c = c'.
Proof.
  induction cs as [|x cs IH]; intros h i c j c'
    (a1 & b1 & h1 & E1 & L1 & F1 & O1) (a2 & b2 & h2 & E2 & L2 & F2 & O2).
  - now destruct a1.
  - destruct a1 as [|y1 a1], a2 as [|y2 a2]; simpl in E1, E2, L1, L2;
      injection E1 as <- E1; injection E2 as <- E2; subst i j.
    + now split.
    + apply all_fail_nil_inv in F1. subst h1.
      apply all_fail_cons_inv in F2. destruct F2 as (e & He & _).
      congruence.
    + apply all_fail_nil_inv in F2. subst h2.
      apply all_fail_cons_inv in F1. destruct F1 as (e & He & _).
      congruence.
    + apply all_fail_cons_inv in F1, F2.
      destruct F1 as (e1 & He1 & F1), F2 as (e2 & He2 & F2).
      assert (e1 = e2) by congruence. subst e2.
      destruct (IH (h ++ [wait_event x (Some e1)])%list
                  (List.length a1) c (List.length a2) c') as [Hi Hc].
      * exists a1, b1, h1; auto.
      * exists a2, b2, h2; auto.
      * split; [now rewrite Hi | exact Hc].
Qed.

Lemma nth_error_tier t l j c :
  nth_error (tier t l) j = Some c -> snd c = t.
Proof.
  unfold tier. rewrite nth_error_map.
  destruct (nth_error l j); cbn [option_map]; [|discriminate].
  now intros [= <-].
Qed.

(** The bound of a candidate tells its tier, and so does its rank. *)
Lemma candidate_bound env s i c :
  nth_error (candidates env s) i = Some c ->
  snd c = if Nat.eqb i 0 then primary_timeout
          else if Nat.leb i (List.length (fallbacks s)) then fallback_timeout
          else heuristic_timeout.
Proof.
  rewrite candidates_tiers. destruct i as [|j]; cbn [nth_error Nat.eqb].
  - now intros [= <-].
  - destruct (Nat.leb (S j) (List.length (fallbacks s))) eqn:E.
    + apply Nat.leb_le in E.
      rewrite nth_error_app1 by (unfold tier; rewrite length_map; lia).
      apply nth_error_tier.
    + apply Nat.leb_gt in E.
      rewrite nth_error_app2 by (unfold tier; rewrite length_map; lia).
      apply nth_error_tier.
Qed.

(** X2 (the log tells how a resolution ended): a resolution appends at most
    one entry, and which one is fixed by the rank [i] of the candidate
    whose wait succeeded, that is by the number of candidates that failed
    before it.  Nothing is appended when the primary was found ([i = 0])
    or when the failure screenshot threw; one HEALED entry naming the
    selector found when it is one of the fallbacks
    ([1 <= i <= fallbacks.length]), even if it is spelled like the
    primary; one HEALED entry naming ["intelligent-fallback"] when it is
    a heuristic candidate; one FAILED entry when every candidate failed
    and [null] is returned. *)
Theorem findElement_log_matches_result env cfg s st :
  let r := findElement env cfg s st in
  exists entries,
    healingLog (snd r) = (healingLog st ++ entries)%list
    /\ match fst r with
       | Ok (Some l) =>
           exists i c,
             found_at env (trace st) (candidates env s) i c
             /\ l = Loc (fst c)
             /\ if Nat.eqb i 0 then entries = []
                else
                  exists t,
                    entries
                    = [logEntry (toISOString t) false (description s)
                         (primary s)
                         (if Nat.leb i (List.length (fallbacks s))
                          then fst c
                          else "intelligent-fallback")]
       | Ok None =>
           (exists h, all_fail env (trace st) (candidates env s) h)
           /\ exists t,
                entries = [logEntry (toISOString t) true (description s)
                             (primary s) "FAILED"]
       | Throw _ => entries = []
       end.
Proof.
  intros r. subst r.
  destruct (findElement_outcome env cfg s st)
    as [(c & h1 & Hfs & Hr & Hlog)
       | (h & Hall & [(Hr & t & Hlog) | (e & Hr & Hlog)])];
    rewrite Hr.
  - destruct Hfs as (cs1 & cs2 & Hcs & Hfail & Hok).
    assert (Hb := candidate_bound env s (List.length cs1) c).
    rewrite Hcs, nth_error_app2, Nat.sub_diag in Hb by lia.
    specialize (Hb eq_refl).
    assert (Hat : found_at env (trace st) (candidates env s)
                    (List.length cs1) c)
      by (exists cs1, cs2, h1; auto).
    destruct Hlog as [(-> & Hlog) | (t & healed & Hlog & Hhealed)].
    + exists []. rewrite app_nil_r. split; [exact Hlog|].
      exists (List.length cs1), (primary s, primary_timeout).
      split; [exact Hat|]. split; [reflexivity|].
      cbn [snd] in Hb.
      destruct (Nat.eqb (List.length cs1) 0); [reflexivity|].
      destruct (Nat.leb (List.length cs1) (List.length (fallbacks s)));
        discriminate Hb.
    + eexists. split; [exact Hlog|].
      exists (List.length cs1), c.
      split; [exact Hat|]. split; [reflexivity|].
      destruct Hhealed as [[Hc ->] | [Hc ->]]; rewrite Hc in Hb;
        destruct (Nat.eqb (List.length cs1) 0); try discriminate Hb;
        destruct (Nat.leb (List.length cs1) (List.length (fallbacks s)));
        try discriminate Hb; now exists t.
  - eexists. split; [exact Hlog|]. split; [now exists h | now exists t].
  - exists []. rewrite app_nil_r. split; [exact Hlog | reflexivity].
Qed.

(* ================================================================== *)
(** ** What a run may add to the history *)

Section HistoryGrows.

Variable Q : Event -> Prop.

Lemma history_grows_refl st : history_grows Q st st.
Proof. exists []. now rewrite app_nil_r. Qed.

Lemma history_grows_trans a b c :
  history_grows Q a b -> history_grows Q b c -> history_grows Q a c.
Proof.
  intros (e1 & H1 & F1) (e2 & H2 & F2). exists (e1 ++ e2)%list.
  rewrite H2, H1, <- app_assoc. split; [reflexivity|].
  apply Forall_app. now split.
Qed.

Lemma history_grows_console st out : history_grows Q st (with_console out st).
Proof. exists []. simpl. now rewrite app_nil_r. Qed.

Lemma history_grows_event st e : Q e -> history_grows Q st (record_event e st).
Proof. intros H. exists [e]. split; [reflexivity | now constructor]. Qed.

Hypothesis Q_clock : forall t, Q (EClock t).

Lemma logHealing_history env cfg o h d f :
  follows (history_grows Q) (logHealing env cfg o h d f).
Proof.
  intros st. rewrite logHealing_run. eexists. simpl.
  split; [reflexivity|]. constructor; [apply Q_clock | constructor].
Qed.

End HistoryGrows.

Ltac history_side := intros; first [exact I | reflexivity | solve [auto]].

Ltac history Q :=
  repeat first
    [ apply (follows_ret _ (history_grows_refl Q))
    | apply (follows_throw _ (history_grows_refl Q))
    | apply (follows_console_log _ (history_grows_console Q))
    | apply (follows_when _ (history_grows_refl Q))
    | apply (follows_page_call _ Q (history_grows_event Q)); history_side
    | apply (follows_now _ Q (history_grows_event Q)); history_side
    | apply (follows_tryStrategies _ Q (history_grows_refl Q)
               (history_grows_trans Q) (history_grows_event Q));
        history_side
    | apply (follows_retryOperation _ Q (history_grows_refl Q)
               (history_grows_trans Q) (history_grows_event Q));
        [|history_side]
    | apply (logHealing_history Q); history_side
    | apply (follows_bind _ (history_grows_trans Q))
    | apply (follows_try_catch _ (history_grows_trans Q))
    | match goal with
      | |- follows _ (match ?x with _ => _ end) => destruct x
      end
    | progress intros ].

Lemma try_fallbacks_history Q env cfg p d fbs :
  (forall c t o, Q (EAction (AWaitFor c t) o)) ->
  (forall t, Q (EClock t)) ->
  forall i, follows (history_grows Q) (try_fallbacks env cfg p d i fbs).
Proof.
  intros Hwait Hclock.
  induction fbs as [|f fbs IH]; intros i; simpl; history Q.
  unfold locate_and_wait. history Q. apply IH.
Qed.

Lemma findElement_history Q env cfg s :
  (forall c t o, Q (EAction (AWaitFor c t) o)) ->
  (forall t, Q (EClock t)) ->
  (forall p o, Q (EAction (AScreenshot p true) o)) ->
  follows (history_grows Q) (findElement env cfg s).
Proof.
  intros Hwait Hclock Hshot.
  unfold findElement, try_primary, intelligentFallback,
    all_strategies_failed, locate_and_wait.
  history Q. now apply try_fallbacks_history.
Qed.

(** X3 (a resolution only looks): all [findElement] does to the page is to
    wait for selectors, read the clock and take full-page screenshots; it
    never clicks, types, fills, runs a script or reads text. *)
Theorem findElement_only_looks env cfg s st :
  exists evs,
    trace (snd (findElement env cfg s st)) = (trace st ++ evs)%list
    /\ Forall resolution_event evs.
Proof.
  apply (findElement_history resolution_event); intros; exact I.
Qed.

(** X9 (the value is passed on as given): every call by which [fill] puts
    a value in the field, be it the standard fill, the keyboard typing or
    the script assignment, carries exactly the value [fill] was given. *)
Theorem fill_passes_value_unchanged env cfg s v st :
  exists evs,
    trace (snd (fill env cfg s v st)) = (trace st ++ evs)%list
    /\ Forall (carries_only v) evs.
Proof.
  revert st.
  change (follows (history_grows (carries_only v)) (fill env cfg s v)).
  unfold fill.
  apply (follows_bind _ (history_grows_trans (carries_only v))).
  - apply findElement_history; intros; exact I.
  - intros [el|]; unfold fill_element; history (carries_only v).
Qed.

(* ================================================================== *)
(** ** The heuristic candidates and the time a resolution may take *)

(** X5 (size of the heuristic table): whatever the element type and the
    description, the generator yields at least 4 and at most 17
    candidates; in particular there is always something to try. *)
Theorem heuristic_candidates_count env ty d :
  (4 <= List.length (heuristic_candidates env ty d) <= 17)%nat.
Proof.
  unfold heuristic_candidates.
  destruct ty;
    unfold buttonStrategies, inputStrategies, linkStrategies,
      textStrategies, genericStrategies;
    repeat match goal with
           | |- context [if ?b then _ else _] => destruct b
           end;
    rewrite ?length_app; cbn [List.length]; lia.
Qed.

Lemma total_timeout_app a b :
  total_timeout (a ++ b) = total_timeout a + total_timeout b.
Proof. induction a as [|c a IH]; simpl; [reflexivity | lia]. Qed.

Lemma total_timeout_tier t l :
  total_timeout (tier t l) = t * Z.of_nat (List.length l).
Proof.
  induction l as [|c l IH]; [simpl; lia|].
  change (tier t (c :: l)) with ((c, t) :: tier t l).
  cbn [total_timeout snd List.length]. rewrite IH. lia.
Qed.

Lemma total_timeout_nonneg l :
  Forall (fun c => 0 <= snd c) l -> 0 <= total_timeout l.
Proof. induction 1; simpl; lia. Qed.

Lemma heuristic_table_bound env ty d :
  (List.length (heuristic_candidates env ty d) <= 17)%nat.
Proof.
  unfold heuristic_candidates.
  destruct ty; [| |cbn [linkStrategies List.length]; lia
                | cbn [textStrategies List.length]; lia
                | cbn [genericStrategies List.length]; lia];
    unfold buttonStrategies, inputStrategies;
    rewrite !length_app;
    repeat match goal with
           | |- context [if ?b then _ else _] => destruct b
           end;
    cbn [List.length]; lia.
Qed.

Lemma candidates_bounds_nonneg env s :
  Forall (fun c => 0 <= snd c) (candidates env s).
Proof.
  rewrite candidates_tiers. constructor; [discriminate|].
  apply Forall_app. split; apply Forall_forall; intros [c t] Hin;
    apply in_tier in Hin; subst t; discriminate.
Qed.

(** X4 (time budget of a resolution): the bounds of the waits one
    [findElement] makes add up to at most 5000 ms for the primary, 3000 ms
    for each listed fallback and 2000 ms for each of at most 17 heuristic
    candidates. *)
Theorem findElement_wait_budget env cfg s st :
  total_timeout (waits_of (new_events st (snd (findElement env cfg s st))))
  <= primary_timeout
     + fallback_timeout * Z.of_nat (List.length (fallbacks s))
     + heuristic_timeout * 17.
Proof.
  assert (Hall : total_timeout (candidates env s)
                 <= primary_timeout
                    + fallback_timeout * Z.of_nat (List.length (fallbacks s))
                    + heuristic_timeout * 17).
  { rewrite candidates_tiers. cbn [total_timeout snd].
    rewrite total_timeout_app, !total_timeout_tier.
    pose proof (heuristic_table_bound env (elementType s) (description s)).
    unfold heuristic_timeout. lia. }
  destruct (findElement_cases env cfg s st)
    as (evs & Htr & [(c & rest & _ & Hw & _) | [(_ & Hw) | Hthrow]]);
    rewrite (new_events_app _ _ _ Htr).
  - rewrite Hw, total_timeout_app in Hall.
    assert (0 <= total_timeout rest).
    { apply total_timeout_nonneg.
      pose proof (candidates_bounds_nonneg env s) as Hn. rewrite Hw in Hn.
      apply Forall_app in Hn. tauto. }
    lia.
  - now rewrite Hw.
  - destruct Hthrow as (h & e & _ & Hw & _). now rewrite Hw.
Qed.

(* ================================================================== *)
(** ** The action layer: what it returns and when it throws *)

Lemma never_throws_ret A (a : A) : never_throws (ret a).
Proof. intros st. now exists a. Qed.

Lemma never_throws_try_catch A (m : M A) (h : Error -> M A) :
  (forall e, never_throws (h e)) -> never_throws (try_catch m h).
Proof.
  intros Hh st. unfold try_catch.
  destruct (m st) as [[a|e] st']; [now exists a | apply Hh].
Qed.

Lemma click_element_never_throws env cfg el s :
  never_throws (click_element env cfg el s).
Proof.
  unfold click_element.
  repeat (apply never_throws_try_catch; intros _).
  apply never_throws_ret.
Qed.

Lemma fill_element_never_throws env cfg el s v :
  never_throws (fill_element env cfg el s v).
Proof.
  unfold fill_element.
  repeat (apply never_throws_try_catch; intros _).
  apply never_throws_ret.
Qed.

Lemma getText_element_never_throws env el :
  never_throws (getText_element env el).
Proof.
  unfold getText_element.
  repeat (apply never_throws_try_catch; intros _).
  apply never_throws_ret.
Qed.

Lemma after_resolution_throws A env cfg s (k : Locator -> M A) (a0 : A) e st :
  (forall el, never_throws (k el)) ->
  fst ((element <- findElement env cfg s;;
        match element with
        | None => ret a0
        | Some el => k el
        end) st) = Throw e
  <-> fst (findElement env cfg s st) = Throw e.
Proof.
  intros Hk. unfold bind.
  destruct (findElement env cfg s st) as [[[el|]|e'] st']; simpl.
  - destruct (Hk el st') as [a Ha]. rewrite Ha. split; discriminate.
  - split; discriminate.
  - split; intros H; injection H as ->; reflexivity.
Qed.

(** X7 (the action layer adds no exception): [click], [fill] and
    [getText] throw exactly when the resolution inside them throws, and
    then the same error; once the element is resolved, every failure of
    an action ends as [false] or [null]. *)
Theorem actions_throw_only_from_resolution env cfg s v e st :
  (fst (click env cfg s st) = Throw e
   <-> fst (findElement env cfg s st) = Throw e)
  /\ (fst (fill env cfg s v st) = Throw e
      <-> fst (findElement env cfg s st) = Throw e)
  /\ (fst (getText env cfg s st) = Throw e
      <-> fst (findElement env cfg s st) = Throw e).
Proof.
  split; [|split].
  - apply after_resolution_throws. intros el.
    apply click_element_never_throws.
  - apply after_resolution_throws. intros el.
    apply fill_element_never_throws.
  - apply after_resolution_throws. intros el.
    apply getText_element_never_throws.
Qed.

Lemma reports_ret_false went : reports went (ret false).
Proof. intros st. exists []. now rewrite app_nil_r. Qed.

Lemma reports_try_catch went (m : M bool) (h : Error -> M bool) :
  tactic went m -> (forall e, reports went (h e)) ->
  reports went (try_catch m h).
Proof.
  intros Hm Hh st. unfold try_catch.
  destruct (Hm st) as (evs & Htr & [(Hr & Hw) | (e & Hr & Hw)]).
  - destruct (m st) as [[b|e] st']; simpl in *; [|discriminate Hr].
    exists evs. split; [exact Htr|]. now rewrite Hw.
  - destruct (m st) as [[b|e'] st']; simpl in *; [discriminate Hr|].
    destruct (Hh e' st') as (evs' & Htr' & Hr').
    exists (evs ++ evs')%list. rewrite Htr', Htr, <- app_assoc.
    split; [reflexivity|]. now rewrite Hr', existsb_app, Hw.
Qed.

Lemma page_call_then_throw A env b e (k : M A) st :
  env_action env (trace st) b = Some e ->
  (page_call env b;; k) st = (Throw e, record_event (EAction b (Some e)) st).
Proof. intros H. unfold bind. now rewrite (page_call_throw _ _ _ _ H). Qed.

Lemma page_call_then_ok A env b (k : M A) st :
  env_action env (trace st) b = None ->
  (page_call env b;; k) st = k (record_event (EAction b None) st).
Proof. intros H. unfold bind. now rewrite (page_call_ok _ _ _ H). Qed.

(** The tactic made of the calls [before] and [a] in a row, of which [a]
    decides, followed by its log entry. *)
Lemma tactic_escalation went env cfg (before : list Action) a o h d :
  (forall b r, In b before -> went (EAction b r) = false) ->
  went (EAction a None) = true ->
  (forall e, went (EAction a (Some e)) = false) ->
  (forall t, went (EClock t) = false) ->
  tactic went
    (fold_right (fun b k => page_call env b;; k)
       (page_call env a;; logHealing env cfg o h d false;; ret true)
       before).
Proof.
  intros Hbefore Hok Hko Hclock.
  induction before as [|b before IH]; intros st; cbn [fold_right].
  - run_monad. unfold page_call.
    destruct (env_action env (trace st) a) as [e|] eqn:E.
    + exists [EAction a (Some e)]. split; [reflexivity|].
      right. exists e. cbn. now rewrite Hko.
    + rewrite logHealing_run. eexists [EAction a None; EClock _].
      cbn [fst snd trace record_event]. rewrite <- app_assoc.
      split; [reflexivity|]. left. cbn. now rewrite Hok.
  - destruct (env_action env (trace st) b) as [e|] eqn:E.
    + rewrite (page_call_then_throw _ _ _ _ _ _ E).
      exists [EAction b (Some e)]. split; [reflexivity|].
      right. exists e. cbn. rewrite Hbefore by now left. auto.
    + rewrite (page_call_then_ok _ _ _ _ _ E).
      destruct (IH (fun b' r H => Hbefore b' r (or_intror H))
                  (record_event (EAction b None) st))
        as (evs & Htr & Hres).
      exists (EAction b None :: evs). cbn [trace record_event] in Htr.
      rewrite Htr, <- app_assoc. split; [reflexivity|].
      cbn [existsb]. rewrite Hbefore by now left. exact Hres.
Qed.

Lemma tactic_retry went env cfg A (operation : M A) :
  (forall st, exists evs,
      trace (snd (operation st)) = (trace st ++ evs)%list
      /\ match fst (operation st) with
         | Ok _ => existsb went evs = true
         | Throw _ => existsb went evs = false
         end) ->
  (forall d o, went (EAction (AWaitForTimeout d) o) = false) ->
  tactic went (retryOperation env cfg operation;; ret true).
Proof.
  intros Hop Htimer.
  assert (H : forall attempts last st, exists evs,
             trace (snd (retry_attempts env cfg operation attempts last st))
             = (trace st ++ evs)%list
             /\ match
                  fst (retry_attempts env cfg operation attempts last st)
                with
                | Ok _ => existsb went evs = true
                | Throw _ => existsb went evs = false
                end).
  { induction attempts as [|a rest IH]; intros last st.
    - exists []. now rewrite app_nil_r.
    - rewrite retry_attempts_cons.
      destruct (Hop st) as (evs & Htr & Hres).
      destruct (operation st) as [[x|e] st']; simpl in *.
      + now exists evs.
      + destruct (a =? maxRetries cfg); simpl; [now exists evs|].
        set (d := retryDelay cfg * 2 ^ (a - 1)).
        destruct (env_action env (trace st') (AWaitForTimeout d))
          as [e'|] eqn:Ew.
        * rewrite (waitForTimeout_rejected _ _ _ _ Ew).
          exists (evs ++ [EAction (AWaitForTimeout d) (Some e')])%list.
          cbn [fst snd trace record_event].
          rewrite Htr, <- app_assoc. split; [reflexivity|].
          rewrite existsb_app, Hres. cbn [existsb orb].
          now rewrite Htimer.
        * rewrite (waitForTimeout_ok _ _ _ Ew).
          destruct (IH e (record_event (EAction (AWaitForTimeout d) None)
                            st'))
            as (evs' & Htr' & Hres').
          exists (evs ++ EAction (AWaitForTimeout d) None :: evs')%list.
          cbn [trace record_event] in Htr'.
          rewrite Htr', Htr, <- !app_assoc. split; [reflexivity|].
          rewrite existsb_app, Hres. cbn [existsb orb].
          now rewrite Htimer. }
  intros st. unfold bind, retryOperation.
  destruct (H (attempt_range (maxRetries cfg)) JsUndefined st)
    as (evs & Htr & Hres).
  destruct (retry_attempts env cfg operation (attempt_range (maxRetries cfg))
              JsUndefined st) as [[x|e] st']; simpl in *; exists evs.
  - split; [exact Htr|]. now left.
  - split; [exact Htr|]. right. now exists e.
Qed.

Lemma click_element_reports env cfg el s :
  reports click_went_through (click_element env cfg el s).
Proof.
  unfold click_element.
  apply reports_try_catch.
  - apply tactic_retry; [|reflexivity].
    intros st. unfold page_call.
    destruct (env_action env (trace st) _) as [e|];
      eexists [_]; split; reflexivity.
  - intros _. apply reports_try_catch.
    + apply (tactic_escalation click_went_through env cfg []);
        try reflexivity. intros b r [].
    + intros _. apply reports_try_catch.
      *  apply (tactic_escalation click_went_through env cfg []);
           try reflexivity. intros b r [].
      *  intros _. apply reports_ret_false.
Qed.

Lemma fill_element_reports env cfg el s v :
  reports fill_went_through (fill_element env cfg el s v).
Proof.
  unfold fill_element.
  apply reports_try_catch.
  - apply tactic_retry; [|reflexivity].
    intros st. unfold bind, page_call.
    destruct (env_action env (trace st) _) as [e|] eqn:E1.
    + eexists [_]. split; reflexivity.
    + cbn [trace record_event].
      destruct (env_action env _ (AFill _ _)) as [e|];
        eexists [_; _]; cbn [fst snd trace record_event];
        rewrite <- app_assoc; split; reflexivity.
  - intros _. apply reports_try_catch.
    + apply (tactic_escalation fill_went_through env cfg
               [AClick (selector_of el) false;
                AKeyboardPress "Control+a"]);
        try reflexivity.
      intros b r [<- | [<- | []]]; reflexivity.
    + intros _. apply reports_try_catch.
      *  apply (tactic_escalation fill_went_through env cfg []);
           try reflexivity. intros b r [].
      *  intros _. apply reports_ret_false.
Qed.

(** X8 ([click] and [fill] tell the truth): on a resolved element [click]
    returns [true] exactly when one of its clicks (standard, forced or by
    script) was accepted in that run, and [fill] returns [true] exactly
    when the standard fill, the keyboard typing or the script assignment
    went through; otherwise they return [false]. *)
Theorem click_and_fill_report_success env cfg el s v :
  reports click_went_through (click_element env cfg el s)
  /\ reports fill_went_through (fill_element env cfg el s v).
Proof.
  split.
  - apply click_element_reports.
  - apply fill_element_reports.
Qed.

(* ================================================================== *)
(** ** Retrying: the edges *)

(** X10 (no attempt at all): with [maxRetries <= 0] the loop of
    [retryOperation] is not entered: the operation is never invoked and
    the never-assigned [lastError], that is [undefined], is thrown.  For
    [click] this means the standard click is skipped and the first call
    on the element is the forced click. *)
Theorem retry_without_attempts cfg :
  maxRetries cfg <= 0 ->
  (forall env T (operation : M T) st,
      retryOperation env cfg operation st = (Throw JsUndefined, st))
  /\ (forall env el s st,
        exists o rest,
          trace (snd (click_element env cfg el s st))
          = (trace st ++ EAction (AClick (selector_of el) true) o :: rest)
            %list).
Proof.
  intros Hmax.
  assert (Hretry : forall env T (operation : M T) st,
             retryOperation env cfg operation st = (Throw JsUndefined, st)).
  { intros env T operation st. unfold retryOperation, attempt_range.
    replace (Z.to_nat (maxRetries cfg)) with 0%nat by lia. reflexivity. }
  split; [exact Hretry|].
  intros env el s st. unfold click_element.
  unfold try_catch at 1. unfold bind at 1. rewrite Hretry.
  unfold try_catch at 1.
  destruct (env_action env (trace st) (AClick (selector_of el) true))
    as [e|] eqn:E.
  - rewrite (page_call_then_throw _ _ _ _ _ _ E).
    exists (Some e). unfold try_catch.
    destruct (env_action env
                (trace (record_event
                          (EAction (AClick (selector_of el) true) (Some e))
                          st))
                (AEvaluate (selector_of el) JsClick)) as [e'|] eqn:E'.
    + rewrite (page_call_then_throw _ _ _ _ _ _ E').
      eexists. cbn [fst snd trace record_event ret].
      rewrite <- !app_assoc. reflexivity.
    + rewrite (page_call_then_ok _ _ _ _ _ E'). unfold bind.
      rewrite logHealing_run.
      eexists. cbn [fst snd trace record_event ret].
      rewrite <- !app_assoc. reflexivity.
  - rewrite (page_call_then_ok _ _ _ _ _ E). unfold bind.
    rewrite logHealing_run.
    exists None. eexists. cbn [fst snd trace record_event ret].
    rewrite <- !app_assoc. reflexivity.
Qed.

Lemma retry_without_attempts_witness :
  maxRetries zero_retries <= 0
  /\ retryOperation full_page zero_retries
       (page_call full_page (AClick "#login" false)) initial_state
     = (Throw JsUndefined, initial_state).
Proof.
  split; [discriminate|].
  apply (retry_without_attempts zero_retries); discriminate.
Defined.

(** After [k] failed attempts, none of them the last, whose backoff waits
    completed, the loop goes on with the attempts that remain. *)
Lemma retry_attempts_skip env cfg T (operation : M T) :
  forall k a0 n last st,
    Z.of_nat (a0 + k) <= maxRetries cfg ->
    let failed :=
      flat_map
        (fun attempt =>
           [Invoke; Backoff (retryDelay cfg * 2 ^ (attempt - 1))])
        (map Z.of_nat (seq a0 k)) in
    fails_throughout env operation failed st ->
    waits_complete env operation failed st ->
    retry_attempts env cfg operation (map Z.of_nat (seq a0 (k + n))) last st
    = retry_attempts env cfg operation (map Z.of_nat (seq (a0 + k) n))
        (fst (run_schedule env operation failed last st))
        (snd (run_schedule env operation failed last st)).
Proof.
  induction k as [|k IH]; intros a0 n last st Hmax failed Hfail Hwaits;
    subst failed.
  - cbn [seq map flat_map run_schedule fst snd Nat.add].
    now rewrite Nat.add_0_r.
  - change (seq a0 (S k + n)) with (a0 :: seq (S a0) (k + n)).
    change (seq a0 (S k)) with (a0 :: seq (S a0) k) in *.
    cbn [map flat_map app fails_throughout waits_complete run_schedule] in *.
    rewrite retry_attempts_cons.
    destruct Hfail as (e & st1 & E & Hrest). rewrite E in *.
    cbn [snd] in Hwaits. destruct Hwaits as [Hwait Hwaits].
    replace (Z.of_nat a0 =? maxRetries cfg) with false
      by (symmetry; apply Z.eqb_neq; lia).
    rewrite (waitForTimeout_completes _ _ _ Hwait).
    replace (a0 + S k)%nat with (S a0 + k)%nat by lia.
    apply IH; [lia | exact Hrest | exact Hwaits].
Qed.

Lemma retryOperation_skip env cfg T (operation : M T) k st :
  Z.of_nat k < maxRetries cfg ->
  fails_throughout env operation (failed_attempts cfg k) st ->
  waits_complete env operation (failed_attempts cfg k) st ->
  let after := run_schedule env operation (failed_attempts cfg k)
                 JsUndefined st in
  retryOperation env cfg operation st
  = retry_attempts env cfg operation
      (Z.of_nat (S k)
       :: map Z.of_nat (seq (S (S k)) (Z.to_nat (maxRetries cfg) - S k)))
      (fst after) (snd after).
Proof.
  intros Hk Hfail Hwaits after. unfold retryOperation, attempt_range.
  replace (Z.to_nat (maxRetries cfg))
    with (k + S (Z.to_nat (maxRetries cfg) - S k))%nat at 1 by lia.
  rewrite (retry_attempts_skip env cfg T operation k 1
             (S (Z.to_nat (maxRetries cfg) - S k)) JsUndefined st);
    [reflexivity | lia | exact Hfail | exact Hwaits].
Qed.

(** X11 (success ends the retrying): when the operation fails [k] times,
    [k < maxRetries], each of the [k] backoff waits that follow these
    failures completes, and the operation then succeeds,
    [retryOperation] returns the value of that success after exactly
    those [k] failed attempts and their [k] waits; with [k = 0] the
    operation is run once and no wait is made. *)
Theorem retry_stops_at_first_success env cfg T (operation : M T) k a st st' :
  Z.of_nat k < maxRetries cfg ->
  fails_throughout env operation (failed_attempts cfg k) st ->
  waits_complete env operation (failed_attempts cfg k) st ->
  operation
    (snd (run_schedule env operation (failed_attempts cfg k) JsUndefined st))
  = (Ok a, st') ->
  retryOperation env cfg operation st = (Ok a, st').
Proof.
  intros Hk Hfail Hwaits Hok.
  rewrite (retryOperation_skip env cfg T operation k st Hk Hfail Hwaits).
  rewrite retry_attempts_cons. now rewrite Hok.
Qed.

Lemma retry_stops_at_first_success_witness :
  Z.of_nat 1 < maxRetries default_config
  /\ fails_throughout second_click_works
       (page_call second_click_works (AClick "#login" false))
       (failed_attempts default_config 1) initial_state
  /\ waits_complete second_click_works
       (page_call second_click_works (AClick "#login" false))
       (failed_attempts default_config 1) initial_state
  /\ trace (snd (retryOperation second_click_works default_config
                   (page_call second_click_works (AClick "#login" false))
                   initial_state))
     = [EAction (AClick "#login" false) (Some (JsError "intercepted"));
        EAction (AWaitForTimeout 1000) None;
        EAction (AClick "#login" false) None].
Proof.
  assert (Hfail : fails_throughout second_click_works
                    (page_call second_click_works (AClick "#login" false))
                    (failed_attempts default_config 1) initial_state).
  { cbn. eexists. eexists. split; [reflexivity | exact I]. }
  assert (Hwaits : waits_complete second_click_works
                     (page_call second_click_works (AClick "#login" false))
                     (failed_attempts default_config 1) initial_state).
  { cbn. split; [reflexivity | exact I]. }
  split; [reflexivity|]. split; [exact Hfail|]. split; [exact Hwaits|].
  rewrite (retry_stops_at_first_success second_click_works default_config
             unit
             (page_call second_click_works (AClick "#login" false)) 1 tt
             initial_state
             {| trace := [EAction (AClick "#login" false)
                            (Some (JsError "intercepted"));
                          EAction (AWaitForTimeout 1000) None;
                          EAction (AClick "#login" false) None];
                healingLog := []; console := [] |}
             eq_refl Hfail Hwaits eq_refl).
  reflexivity.
Defined.

(** X20 (a rejected wait ends the retrying): when the operation fails
    [k + 1] times, the last of these failures is not the last attempt
    ([k + 1 < maxRetries]), the first [k] backoff waits complete and the
    wait after failure [k + 1] is rejected (the page was closed, say),
    [retryOperation] makes no further attempt and throws the rejection of
    that wait, not the failure of the operation. *)
Theorem retry_ends_at_rejected_wait env cfg T (operation : M T)
    k e e' st st' :
  Z.of_nat k + 1 < maxRetries cfg ->
  fails_throughout env operation (failed_attempts cfg k) st ->
  waits_complete env operation (failed_attempts cfg k) st ->
  operation
    (snd (run_schedule env operation (failed_attempts cfg k) JsUndefined st))
  = (Throw e, st') ->
  env_action env (trace st')
    (AWaitForTimeout (retryDelay cfg * 2 ^ Z.of_nat k)) = Some e' ->
  retryOperation env cfg operation st
  = (Throw e',
     record_event
       (EAction (AWaitForTimeout (retryDelay cfg * 2 ^ Z.of_nat k))
          (Some e')) st').
Proof.
  intros Hk Hfail Hwaits Hop Hwait.
  rewrite (retryOperation_skip env cfg T operation k st
             ltac:(lia) Hfail Hwaits).
  rewrite retry_attempts_cons, Hop.
  replace (Z.of_nat (S k) =? maxRetries cfg) with false
    by (symmetry; apply Z.eqb_neq; lia).
  replace (Z.of_nat (S k) - 1) with (Z.of_nat k) by lia.
  now rewrite (waitForTimeout_rejected _ _ _ _ Hwait).
Qed.

Lemma retry_ends_at_rejected_wait_witness :
  let page := page_closed_after 3 in
  let operation := page_call page (AClick "#login" false) in
  let st' :=
    {| trace := [EAction (AClick "#login" false)
                   (Some (JsError "intercepted"));
                 EAction (AWaitForTimeout 1000) None;
                 EAction (AClick "#login" false)
                   (Some (JsError "intercepted"))];
       healingLog := []; console := [] |} in
  Z.of_nat 1 + 1 < maxRetries default_config
  /\ fails_throughout page operation (failed_attempts default_config 1)
       initial_state
  /\ waits_complete page operation (failed_attempts default_config 1)
       initial_state
  /\ operation
       (snd (run_schedule page operation (failed_attempts default_config 1)
               JsUndefined initial_state))
     = (Throw (JsError "intercepted"), st')
  /\ env_action page (trace st')
       (AWaitForTimeout (retryDelay default_config * 2 ^ Z.of_nat 1))
     = Some closed_page_error
  /\ retryOperation page default_config operation initial_state
     = (Throw closed_page_error,
        record_event
          (EAction (AWaitForTimeout 2000) (Some closed_page_error)) st').
Proof.
  cbv zeta.
  assert (Hfail : fails_throughout (page_closed_after 3)
                    (page_call (page_closed_after 3) (AClick "#login" false))
                    (failed_attempts default_config 1) initial_state).
  { cbn. eexists. eexists. split; [reflexivity | exact I]. }
  assert (Hwaits : waits_complete (page_closed_after 3)
                     (page_call (page_closed_after 3)
                        (AClick "#login" false))
                     (failed_attempts default_config 1) initial_state).
  { cbn. split; [reflexivity | exact I]. }
  split; [reflexivity|]. split; [exact Hfail|]. split; [exact Hwaits|].
  split; [reflexivity|]. split; [reflexivity|].
  exact (retry_ends_at_rejected_wait (page_closed_after 3) default_config
           unit (page_call (page_closed_after 3) (AClick "#login" false))
           1 (JsError "intercepted") closed_page_error initial_state _
           eq_refl Hfail Hwaits eq_refl eq_refl).
Defined.

(* ================================================================== *)
(** ** Reading text *)

(** X12 (a [null] text is final): when [textContent] resolves, be it to
    [null], [getText] returns that answer and tries neither [innerText]
    nor the script; the page object's [healingGetText] then reports the
    element, although found, as a failure. *)
Theorem null_text_is_not_retried env s st el st1 :
  findElement env base_page_config s st = (Ok (Some el), st1) ->
  env_text env (trace st1) (QTextContent (selector_of el)) = inr None ->
  let st2 :=
    record_event (EText (QTextContent (selector_of el)) (inr None)) st1 in
  getText env base_page_config s st = (Ok None, st2)
  /\ healingGetText env s st
     = (Throw (JsError ("Failed to get text from element: " ++ named s)),
        st2).
Proof.
  intros Hfind Htext st2.
  assert (H : getText env base_page_config s st = (Ok None, st2)).
  { unfold getText, bind. rewrite Hfind.
    unfold getText_element, try_catch, page_text. now rewrite Htext. }
  split; [exact H|].
  unfold healingGetText, bind. now rewrite H.
Qed.

Lemma null_text_is_not_retried_witness :
  let st1 :=
    record_event (EAction (AWaitFor "#bad-id" primary_timeout) None)
      (with_console
         ["✅ Primary selector worked: #bad-id (username field)"]
         initial_state) in
  findElement null_text_page base_page_config scenario_A initial_state
  = (Ok (Some (Loc "#bad-id")), st1)
  /\ env_text null_text_page (trace st1) (QTextContent "#bad-id") = inr None
  /\ fst (healingGetText null_text_page scenario_A initial_state)
     = Throw (JsError
                "Failed to get text from element: username field (#bad-id)").
Proof.
  split; [reflexivity|]. split; [reflexivity|].
  destruct (null_text_is_not_retried null_text_page scenario_A initial_state
              (Loc "#bad-id")
              (record_event (EAction (AWaitFor "#bad-id" primary_timeout) None)
                 (with_console
                    ["✅ Primary selector worked: #bad-id (username field)"]
                    initial_state))
              eq_refl eq_refl) as [_ H].
  now rewrite H.
Defined.

(* ================================================================== *)
(** ** The log over a sequence of calls *)

(** X13 (append-only log): [findElement], [click], [fill], [getText],
    [getHealingLog] and [exportHealingReport] leave every entry already in
    the healing log in place and only add well-formed entries after them;
    [clearLog] alone removes entries, all of them at once, and touches
    nothing else. *)
Theorem log_is_append_only env cfg c st :
  match c with
  | CallClearLog =>
      healingLog (perform env cfg c st) = []
      /\ trace (perform env cfg c st) = trace st
      /\ console (perform env cfg c st) = console st
  | _ =>
      exists entries,
        healingLog (perform env cfg c st) = (healingLog st ++ entries)%list
        /\ Forall (entry_format written_statuses) entries
  end.
Proof.
  destruct c; simpl.
  - apply (findElement_grows _ logEntry_written).
  - apply (click_grows _ logEntry_written).
  - apply (fill_grows _ logEntry_written).
  - apply (getText_grows _ logEntry_written).
  - exists []. now rewrite app_nil_r.
  - apply exportHealingReport_grows.
  - repeat split.
Qed.

(* ================================================================== *)
(** ** The page object *)

Lemma findElement_finds_iff env cfg s st :
  (exists l, fst (findElement env cfg s st) = Ok (Some l))
  <-> exists c h1, first_success env (trace st) (candidates env s) c h1.
Proof.
  split.
  - intros [l H].
    destruct (findElement_outcome env cfg s st)
      as [(c & h1 & Hfs & _) | (h & _ & [(Hr & _) | (e & Hr & _)])];
      [eauto | rewrite Hr in H; discriminate H
             | rewrite Hr in H; discriminate H].
  - intros (c & h1 & Hfs).
    destruct (findElement_outcome env cfg s st)
      as [(c' & h1' & _ & Hr & _) | (h & Hall & _)]; [eauto|].
    destruct (first_success_not_all_fail _ _ _ _ _ _ Hfs Hall).
Qed.

(** X14 ([healingIsVisible] decides and never throws): it returns [true]
    exactly when some candidate shows up, and [false] otherwise, also
    when the failure screenshot of the resolution rejects. *)
Theorem healingIsVisible_decides env s st :
  exists b,
    fst (healingIsVisible env s st) = Ok b
    /\ (b = true
        <-> exists c h1, first_success env (trace st) (candidates env s) c h1).
Proof.
  pose proof (findElement_finds_iff env base_page_config s st) as Hiff.
  unfold healingIsVisible, try_catch, bind.
  destruct (findElement env base_page_config s st) as [[[l|]|e] st'];
    simpl in *.
  - exists true. split; [reflexivity|]. split; [|reflexivity].
    intros _. apply Hiff. now exists l.
  - exists false. split; [reflexivity|]. split; [discriminate|].
    intros H. apply Hiff in H. destruct H as [l H]. discriminate H.
  - exists false. split; [reflexivity|]. split; [discriminate|].
    intros H. apply Hiff in H. destruct H as [l H]. discriminate H.
Qed.

Lemma action_after_resolution went env cfg s (k : Locator -> M bool) st :
  (forall el, reports went (k el)) ->
  fst ((element <- findElement env cfg s;;
        match element with
        | None => ret false
        | Some el => k el
        end) st) = Ok true ->
  exists evs,
    trace (snd ((element <- findElement env cfg s;;
                 match element with
                 | None => ret false
                 | Some el => k el
                 end) st)) = (trace st ++ evs)%list
    /\ existsb went evs = true.
Proof.
  intros Hk. unfold bind.
  destruct (findElement_history (fun _ => True) env cfg s
              (fun _ _ _ => I) (fun _ => I) (fun _ _ => I) st)
    as (evs1 & Htr1 & _).
  destruct (findElement env cfg s st) as [[[el|]|e] st1]; simpl in *;
    try discriminate.
  destruct (Hk el st1) as (evs2 & Htr2 & Hr2).
  intros H. rewrite Hr2 in H. injection H as H.
  exists (evs1 ++ evs2)%list. rewrite Htr2, Htr1, <- app_assoc.
  split; [reflexivity|]. rewrite existsb_app, H. apply orb_true_r.
Qed.

Lemma click_success_trace env cfg s st :
  fst (click env cfg s st) = Ok true ->
  exists evs,
    trace (snd (click env cfg s st)) = (trace st ++ evs)%list
    /\ existsb click_went_through evs = true.
Proof.
  apply (action_after_resolution click_went_through env cfg s
           (fun el => click_element env cfg el s)).
  intros el. apply click_element_reports.
Qed.

Lemma fill_success_trace env cfg s v st :
  fst (fill env cfg s v st) = Ok true ->
  exists evs,
    trace (snd (fill env cfg s v st)) = (trace st ++ evs)%list
    /\ existsb fill_went_through evs = true.
Proof.
  apply (action_after_resolution fill_went_through env cfg s
           (fun el => fill_element env cfg el s v)).
  intros el. apply fill_element_reports.
Qed.

(** X15 (a success of the page object is a success on the page):
    [healingClick] and [healingFill] never return [false]; when they
    return, the value is [true] and during the call the page accepted a
    click (standard, forced or by script), respectively a way of filling
    the field went through to its end. *)
Theorem page_object_success_is_real env s v st :
  (forall b,
      fst (healingClick env s st) = Ok b ->
      b = true
      /\ exists evs,
           trace (snd (healingClick env s st)) = (trace st ++ evs)%list
           /\ existsb click_went_through evs = true)
  /\ (forall b,
        fst (healingFill env s v st) = Ok b ->
        b = true
        /\ exists evs,
             trace (snd (healingFill env s v st)) = (trace st ++ evs)%list
             /\ existsb fill_went_through evs = true).
Proof.
  split; intros b H.
  - pose proof (click_success_trace env base_page_config s st) as Hact.
    unfold healingClick, bind in H |- *.
    destruct (click env base_page_config s st) as [[[|]|e] st1];
      simpl in *; try discriminate H.
    injection H as <-. split; [reflexivity|]. now apply Hact.
  - pose proof (fill_success_trace env base_page_config s v st) as Hact.
    unfold healingFill, bind in H |- *.
    destruct (fill env base_page_config s v st) as [[[|]|e] st1];
      simpl in *; try discriminate H.
    injection H as <-. split; [reflexivity|]. now apply Hact.
Qed.

(** X16 (what the caller of [healingFindElement] sees): it returns the
    locator of the first candidate to show up and never [null].  When every
    candidate fails, the screenshot is always attempted (the page object
    sets [screenshotOnFailure]); the caller gets
    ["Failed to find element: <description> (<primary>)"] if the screenshot
    went through and the rejection of the screenshot if it did not. *)
Theorem healingFindElement_outcome env s st :
  (forall l,
      fst (healingFindElement env s st) = Ok l
      <-> exists c h1,
            first_success env (trace st) (candidates env s) c h1
            /\ l = Loc (fst c))
  /\ (forall h,
        all_fail env (trace st) (candidates env s) h ->
        fst (healingFindElement env s st)
        = Throw
            match env_action env (shot_history env h) (failure_shot env h) with
            | None => JsError ("Failed to find element: " ++ named s)
            | Some e => e
            end).
Proof.
  split.
  - intros l. unfold healingFindElement, bind.
    destruct (findElement_outcome env base_page_config s st)
      as [(c & h1 & Hfs & Hr & _) | (h & Hall & Hr)].
    + destruct (findElement env base_page_config s st) as [r st'].
      simpl in Hr. subst r. simpl. split.
      * intros H. injection H as <-. eauto.
      * intros (c' & h1' & Hfs' & ->).
        now destruct (first_success_unique _ _ _ _ _ _ _ Hfs Hfs') as [-> _].
    + split.
      * destruct (findElement env base_page_config s st) as [r st'].
        simpl in Hr. destruct Hr as [(-> & _) | (e & -> & _)]; discriminate.
      * intros (c & h1 & Hfs & _).
        destruct (first_success_not_all_fail _ _ _ _ _ _ Hfs Hall).
  - intros h Hall. unfold healingFindElement, bind.
    destruct (findElement_exhausted env base_page_config s st h Hall)
      as [out E].
    rewrite E.
    destruct (env_action env (shot_history env h) (failure_shot env h))
      as [e|] eqn:Hshot.
    + now rewrite (all_strategies_failed_throw env base_page_config
                     (primary s) (description s)
                     (with_console out (with_trace h st)) e eq_refl Hshot).
    + destruct (all_strategies_failed_screenshot env base_page_config
                  (primary s) (description s)
                  (with_console out (with_trace h st)) eq_refl Hshot)
        as [out' E'].
      now rewrite E'.
Qed.

Lemma clock_never_goes_back env :
  timers_take_time env ->
  forall evs h, env_clock env h <= env_clock env (h ++ evs).
Proof.
  intros [Hmono _] evs.
  induction evs as [|e evs IH] using rev_ind; intros h.
  - rewrite app_nil_r. lia.
  - rewrite app_assoc. specialize (IH h). specialize (Hmono (h ++ evs)%list e).
    lia.
Qed.

Lemma poll_once env s st :
  let r := try_catch (findElement env base_page_config s)
             (fun _ => ret None) st in
  (exists found, fst r = Ok found)
  /\ exists evs, trace (snd r) = (trace st ++ evs)%list.
Proof.
  cbv zeta. split.
  - apply never_throws_try_catch. intros e. apply never_throws_ret.
  - destruct (follows_try_catch _ (history_grows_trans (fun _ => True)) _
                (findElement env base_page_config s) (fun _ => ret None)
                (findElement_history (fun _ => True) env base_page_config s
                   (fun _ _ _ => I) (fun _ => I) (fun _ _ => I))
                (fun _ => follows_ret _ (history_grows_refl (fun _ => True))
                            _ None) st)
      as (evs & Htr & _).
    now exists evs.
Qed.

Lemma wait_loop_step env s timeout start fuel st :
  wait_loop env s timeout start (S fuel) st
  = let t := env_clock env (trace st) in
    let st1 := record_event (EClock t) st in
    if t - start <? timeout then
      match
        try_catch (findElement env base_page_config s) (fun _ => ret None)
          st1
      with
      | (Ok (Some element), st2) => Some (Ok element, st2)
      | (Ok None, st2) =>
          match waitForTimeout env 1000 st2 with
          | (Ok _, st3) => wait_loop env s timeout start fuel st3
          | (Throw e, st3) => Some (Throw e, st3)
          end
      | (Throw e, st2) => Some (Throw e, st2)
      end
    else
      Some (Throw (JsError ("Timeout waiting for element: " ++ named s)),
            st1).
Proof. reflexivity. Qed.

(** How the polling loop may end: with a locator, with its own timeout
    error, or with the rejection of the one-second wait between two
    rounds, which is then the last call of the history. *)
Lemma wait_loop_terminates env s timeout start :
  timers_take_time env ->
  forall fuel st,
    timeout - (env_clock env (trace st) - start) <= 1000 * Z.of_nat fuel ->
    exists r st',
      wait_loop env s timeout start (S fuel) st = Some (r, st')
      /\ ((exists l, r = Ok l)
          \/ r = Throw (JsError ("Timeout waiting for element: " ++ named s))
          \/ (exists e h,
                 r = Throw e
                 /\ trace st'
                    = (h ++ [EAction (AWaitForTimeout 1000) (Some e)])%list)).
Proof.
  intros Hclock. induction fuel as [|fuel IH]; intros st Hm;
    rewrite wait_loop_step; cbv zeta;
    destruct (env_clock env (trace st) - start <? timeout) eqn:Hlt;
    try (eexists; eexists; split; [reflexivity|]; right; now left).
  - apply Z.ltb_lt in Hlt. lia.
  - destruct (poll_once env s
                (record_event (EClock (env_clock env (trace st))) st))
      as [[found Hr] [evs Htr]].
    destruct (try_catch (findElement env base_page_config s)
                (fun _ => ret None)
                (record_event (EClock (env_clock env (trace st))) st))
      as [r st2].
    simpl in Hr, Htr. subst r. destruct found as [l|].
    { eexists. eexists. split; [reflexivity|]. left. now exists l. }
    destruct (env_action env (trace st2) (AWaitForTimeout 1000))
      as [e|] eqn:Ew.
    + rewrite (waitForTimeout_rejected _ _ _ _ Ew).
      eexists. eexists. split; [reflexivity|]. right. right.
      exists e, (trace st2). split; reflexivity.
    + rewrite (waitForTimeout_ok _ _ _ Ew).
      apply IH. cbn [trace record_event].
      destruct Hclock as [Hmono Htimer].
      pose proof (Htimer (trace st2) 1000) as H1.
      rewrite Htr in H1 |- *.
      pose proof (clock_never_goes_back env (conj Hmono Htimer)
                    ([EClock (env_clock env (trace st))] ++ evs)
                    (trace st)) as H2.
      rewrite <- !app_assoc in H1. rewrite <- !app_assoc.
      cbn [app] in H1, H2 |- *. lia.
Qed.

(** X17 ([healingWaitForElement] ends): on a clock that never goes back
    and on which a completed timer wait of 1000 ms takes at least that
    long, the polling loop ends within [timeout / 1000] rounds (rounded
    up) plus one.  It ends with a locator, with
    ["Timeout waiting for element: <description> (<primary>)"], or, when
    the wait between two rounds is itself rejected, with that rejection,
    the wait being the last call made; an exception of a resolution
    inside the loop never reaches the caller. *)
Theorem healingWaitForElement_ends env s timeout fuel st :
  timers_take_time env ->
  timeout <= 1000 * Z.of_nat fuel ->
  exists r st',
    healingWaitForElement env s timeout (S fuel) st = Some (r, st')
    /\ ((exists l, r = Ok l)
        \/ r = Throw (JsError ("Timeout waiting for element: " ++ named s))
        \/ (exists e h,
               r = Throw e
               /\ trace st'
                  = (h ++ [EAction (AWaitForTimeout 1000) (Some e)])%list)).
Proof.
  intros Hclock Hfuel. unfold healingWaitForElement, now. cbv zeta.
  apply wait_loop_terminates; [exact Hclock|].
  cbn [trace record_event].
  pose proof (proj1 Hclock (trace st) (EClock (env_clock env (trace st)))).
  lia.
Qed.

Lemma elapsed_snoc h e : elapsed (h ++ [e]) = elapsed h + elapsed [e].
Proof.
  remember (elapsed [e]) as k.
  induction h as [|x h IH]; [subst k; reflexivity|].
  change ((x :: h) ++ [e])%list with (x :: (h ++ [e]))%list.
  destruct x as [[] [|] | |]; cbn [elapsed]; rewrite IH; lia.
Qed.

Lemma elapsed_takes_time : timers_take_time timed_blank_page.
Proof.
  split; intros h x; cbn [env_clock timed_blank_page]; rewrite elapsed_snoc.
  - destruct x as [[] [|] | |]; cbn [elapsed]; lia.
  - cbn [elapsed]. lia.
Qed.

Lemma healingWaitForElement_ends_witness :
  timers_take_time timed_blank_page
  /\ 10000 <= 1000 * Z.of_nat 10
  /\ exists r st',
       healingWaitForElement timed_blank_page scenario_A 10000 11
         initial_state = Some (r, st')
       /\ ((exists l, r = Ok l)
           \/ r = Throw (JsError ("Timeout waiting for element: "
                                   ++ named scenario_A))
           \/ (exists e h,
                  r = Throw e
                  /\ trace st'
                     = (h ++ [EAction (AWaitForTimeout 1000) (Some e)])
                       %list)).
Proof.
  split; [exact elapsed_takes_time|]. split; [discriminate|].
  apply (healingWaitForElement_ends timed_blank_page scenario_A 10000 10
           initial_state elapsed_takes_time).
  discriminate.
Defined.

(* ================================================================== *)
(** ** What the test suite looks for in an entry *)

Lemma string_app_assoc (a b c : string) : (a ++ b) ++ c = a ++ (b ++ c).
Proof. induction a as [|x a IH]; simpl; [reflexivity | now rewrite IH]. Qed.

Lemma prefix_app sub r : String.prefix sub (sub ++ r) = true.
Proof.
  induction sub as [|x sub IH]; simpl; [now destruct r|].
  destruct (ascii_dec x x) as [_|n]; [exact IH | now destruct n].
Qed.

Lemma includes_app_r a b sub : includes b sub = true -> includes (a ++ b) sub = true.
Proof.
  intros H. induction a as [|x a IH]; [exact H|].
  change ((String x a) ++ b) with (String x (a ++ b)).
  cbn [includes]. rewrite IH. apply orb_true_r.
Qed.

Lemma includes_here sub r : includes (sub ++ r) sub = true.
Proof.
  destruct (sub ++ r) eqn:E; cbn [includes]; rewrite <- E, prefix_app;
    reflexivity.
Qed.

(** X18 (the status can be searched for): every entry written for a healing
    contains the text [HEALED] and every entry written for a failure the
    text [FAILED], whatever the timestamp, the description and the
    selectors; this is what the test suite filters the log on. *)
Theorem entries_contain_their_status ts d o h :
  includes (logEntry ts false d o h) "HEALED" = true
  /\ includes (logEntry ts true d o h) "FAILED" = true.
Proof.
  unfold logEntry, status_string. split.
  - change "🔧 HEALED" with ("🔧 " ++ "HEALED").
    rewrite (string_app_assoc "🔧 " "HEALED").
    apply includes_app_r, includes_app_r, includes_app_r, includes_here.
  - change "❌ FAILED" with ("❌ " ++ "FAILED").
    rewrite (string_app_assoc "❌ " "FAILED").
    apply includes_app_r, includes_app_r, includes_app_r, includes_here.
Qed.

(* ================================================================== *)
(** ** How much an action may do *)

Section AtMost.

Variable f : Event -> bool.

Lemma at_most_ret A (a : A) : at_most f 0 (ret a).
Proof. intros st. exists []. now rewrite app_nil_r. Qed.

Lemma at_most_throw A e : at_most f 0 (@throw A e).
Proof. intros st. exists []. now rewrite app_nil_r. Qed.

Lemma at_most_weaken A (m : M A) n n' :
  (n <= n')%nat -> at_most f n m -> at_most f n' m.
Proof.
  intros Hn H st. destruct (H st) as (evs & Htr & Hc).
  exists evs. split; [exact Htr | lia].
Qed.

Lemma at_most_bind A B (m : M A) (k : A -> M B) n1 n2 :
  at_most f n1 m -> (forall a, at_most f n2 (k a)) ->
  at_most f (n1 + n2) (bind m k).
Proof.
  intros Hm Hk st. unfold bind. destruct (Hm st) as (evs & Htr & Hc).
  destruct (m st) as [[a|e] st']; simpl in *.
  - destruct (Hk a st') as (evs' & Htr' & Hc').
    exists (evs ++ evs')%list. rewrite Htr', Htr, <- app_assoc.
    split; [reflexivity|]. rewrite filter_app, length_app. lia.
  - exists evs. split; [exact Htr | lia].
Qed.

Lemma at_most_try_catch A (m : M A) (h : Error -> M A) n1 n2 :
  at_most f n1 m -> (forall e, at_most f n2 (h e)) ->
  at_most f (n1 + n2) (try_catch m h).
Proof.
  intros Hm Hh st. unfold try_catch. destruct (Hm st) as (evs & Htr & Hc).
  destruct (m st) as [[a|e] st']; simpl in *.
  - exists evs. split; [exact Htr | lia].
  - destruct (Hh e st') as (evs' & Htr' & Hc').
    exists (evs ++ evs')%list. rewrite Htr', Htr, <- app_assoc.
    split; [reflexivity|]. rewrite filter_app, length_app. lia.
Qed.

Lemma at_most_page_call env a : at_most f 1 (page_call env a).
Proof.
  intros st. unfold page_call.
  destruct (env_action env (trace st) a); eexists [_];
    (split; [reflexivity|]); cbn [filter];
    match goal with |- context [f ?x] => destruct (f x) end; simpl; lia.
Qed.

Lemma at_most_page_call_none env a :
  (forall o, f (EAction a o) = false) -> at_most f 0 (page_call env a).
Proof.
  intros Hf st. unfold page_call.
  destruct (env_action env (trace st) a); eexists [_];
    (split; [reflexivity|]); cbn [filter]; rewrite Hf; simpl; lia.
Qed.

Lemma at_most_logHealing env cfg o h d b :
  (forall t, f (EClock t) = false) ->
  at_most f 0 (logHealing env cfg o h d b).
Proof.
  intros Hf st. rewrite logHealing_run. eexists [_].
  split; [reflexivity|]. cbn [filter]. rewrite Hf. simpl. lia.
Qed.

Lemma at_most_waitForTimeout env d : at_most f 1 (waitForTimeout env d).
Proof. apply at_most_page_call. Qed.

Lemma at_most_waitForTimeout_none env d :
  (forall o, f (EAction (AWaitForTimeout d) o) = false) ->
  at_most f 0 (waitForTimeout env d).
Proof. apply at_most_page_call_none. Qed.

(** Each round of the retry loop runs the operation, and all but the last
    are followed by a timer wait. *)
Lemma at_most_retry_attempts env cfg A (operation : M A) a b :
  at_most f a operation ->
  (forall d, at_most f b (waitForTimeout env d)) ->
  forall attempts last,
    at_most f (List.length attempts * (a + b))
      (retry_attempts env cfg operation attempts last).
Proof.
  intros Hop Hwait attempts.
  induction attempts as [|x rest IH]; intros last; cbn [retry_attempts].
  - apply at_most_throw.
  - apply (at_most_weaken _ _ (a + (b + List.length rest * (a + b))));
      [cbn [List.length]; lia|].
    apply at_most_try_catch; [exact Hop|]. intros e.
    destruct (x =? maxRetries cfg).
    + apply (at_most_weaken _ _ 0); [lia | apply at_most_throw].
    + apply at_most_bind; [apply Hwait | intros _; apply IH].
Qed.

Lemma at_most_retryOperation env cfg A (operation : M A) a b :
  at_most f a operation ->
  (forall d, at_most f b (waitForTimeout env d)) ->
  at_most f (Z.to_nat (maxRetries cfg) * (a + b))
    (retryOperation env cfg operation).
Proof.
  intros Hop Hwait. unfold retryOperation.
  replace (Z.to_nat (maxRetries cfg))
    with (List.length (attempt_range (maxRetries cfg)))
    by (unfold attempt_range; now rewrite length_map, length_seq).
  now apply at_most_retry_attempts.
Qed.

End AtMost.

Ltac count_none :=
  intros;
  first [ reflexivity
        | match goal with
          | o : option _ |- _ => destruct o; reflexivity
          end ].

(** Adds up what the parts of a computation may contribute. *)
Ltac count f :=
  repeat first
    [ match goal with |- forall _, _ => intro end
    | apply (at_most_ret f)
    | apply (at_most_throw f)
    | apply (at_most_logHealing f); count_none
    | apply (at_most_page_call_none f); count_none
    | apply (at_most_page_call f)
    | apply (at_most_waitForTimeout_none f); count_none
    | apply (at_most_waitForTimeout f)
    | eapply (at_most_retryOperation f)
    | eapply (at_most_bind f)
    | eapply (at_most_try_catch f) ].

Lemma at_most_new_events f n A (m : M A) st :
  at_most f n m ->
  (List.length (filter f (new_events st (snd (m st)))) <= n)%nat.
Proof.
  intros H. destruct (H st) as (evs & Htr & Hc).
  now rewrite (new_events_app _ _ _ Htr).
Qed.

(** X19 (bounded effort): on a resolved element one [click] makes at most
    [maxRetries] standard clicks and as many timer waits, at most one
    forced click and at most one script call; one [fill] makes at most
    [maxRetries] standard fills and as many timer waits, types the value
    on the keyboard at most once and runs at most one script. *)
Theorem actions_make_bounded_effort env cfg el s v st :
  let retries := Z.to_nat (maxRetries cfg) in
  let clicked := new_events st (snd (click_element env cfg el s st)) in
  let filled := new_events st (snd (fill_element env cfg el s v st)) in
  ((List.length (filter is_standard_click clicked) <= retries)%nat
   /\ (List.length (filter is_timer_wait clicked) <= retries)%nat
   /\ (List.length (filter is_forced_click clicked) <= 1)%nat
   /\ (List.length (filter is_script_call clicked) <= 1)%nat)
  /\ ((List.length (filter is_field_fill filled) <= retries)%nat
      /\ (List.length (filter is_timer_wait filled) <= retries)%nat
      /\ (List.length (filter is_typing filled) <= 1)%nat
      /\ (List.length (filter is_script_call filled) <= 1)%nat).
Proof.
  cbv zeta.
  repeat split;
    match goal with
    | |- (List.length (filter ?f (new_events _ (snd (?m _)))) <= _)%nat =>
        let H := fresh "H" in
        eassert (H : at_most f _ m)
          by (unfold click_element, fill_element; count f);
        apply (at_most_new_events f _ _ m st) in H; lia
    end.
Qed.
